(** * Robot baseball: the equilibrium evaluator and its scalar maximizer

    A shallow embedding of [robot_baseball_fast.py].  The program is written
    once, over an interface [Arith] of the scalar operations it uses, and is
    run at two instances: [binary64], the IEEE 754 double precision numbers
    that Python's [float] is, and [exact], the real numbers, in which the
    rounding of every operation is ignored.

    Python's failures are explicit: indexing a list out of range and dividing
    a float by zero return an error.  The evaluator is given twice: on grids
    that are values, and on a heap of list objects that are allocated and
    changed in place.

    The file has five parts: the program, the two arithmetics, the
    vocabulary of the statements, the proofs, and further properties of the
    maximizer and of the evaluator. *)

From Stdlib Require Import List ZArith Lia Bool Floats Uint63 Reals Lra.
Import ListNotations.

Set Warnings "-inexact-float".

(** * Part I: the program *)

(** ** Results of fallible code *)

(** Python's exceptions; [OutOfFuel] and [BadAddress] are those of the
    embedding: a loop that was given too few iterations, and an address
    that holds no object. *)
Inductive exn : Type :=
| IndexError
| ZeroDivisionError
| TypeError
| OutOfFuel
| BadAddress.

Inductive result (X : Type) : Type :=
| Ok (x : X)
| Err (e : exn).

Arguments Ok {X} x.
Arguments Err {X} e.

Definition bind {X Y : Type} (m : result X) (k : X -> result Y) : result Y :=
  match m with
  | Ok x => k x
  | Err e => Err e
  end.

Declare Scope result_scope.
Delimit Scope result_scope with result.
Notation "x <- m ;; k" := (bind m (fun x => k))
  (at level 61, m at next level, right associativity) : result_scope.
Notation "' pat <- m ;; k" := (bind m (fun x => match x with pat => k end))
  (at level 61, pat pattern, m at next level, right associativity)
  : result_scope.
Open Scope result_scope.

(** [for x in xs: body], the loop body threading the variables it assigns. *)
Fixpoint for_each {X S : Type} (xs : list X) (body : X -> S -> result S)
    (st : S) : result S :=
  match xs with
  | [] => Ok st
  | x :: xs' => st' <- body x st ;; for_each xs' body st'
  end.

(** ** The scalar operations of the program *)

Class Arith : Type := {
  num : Type;
  (** the decimal literal [m * 10^e] *)
  dec : Z -> Z -> num;
  (** the conversion of an [int] operand in mixed arithmetic *)
  of_int : Z -> num;
  add : num -> num -> num;
  sub : num -> num -> num;
  mul : num -> num -> num;
  (** the quotient by a divisor that is not zero *)
  quo : num -> num -> num;
  (** [y == 0.0], on which [x / y] raises *)
  is_zero : num -> bool;
  absn : num -> num;
  ltb : num -> num -> bool;
  leb : num -> num -> bool;
  (** [x ** 0.5] *)
  sqrtn : num -> num;
  (** a number whose absolute value is not below [1e-18] is not zero *)
  small_zero :
    forall d, ltb (absn d) (dec 1 (-18)) = false -> is_zero d = false;
  leb_not_ltb : forall x y, leb x y = true -> ltb y x = false;
  (** the two divisors that are not computed from the input *)
  two_not_zero : is_zero (dec 2 0) = false;
  scan_steps_not_zero : is_zero (of_int 2048) = false
}.

Declare Scope num_scope.
Delimit Scope num_scope with num.
Infix "+" := add : num_scope.
Infix "-" := sub : num_scope.
Infix "*" := mul : num_scope.
Infix "<?" := ltb : num_scope.
Infix "<=?" := leb : num_scope.

Section Evaluator.

Context {A : Arith}.

Local Open Scope num_scope.

(** [x / y] on floats. *)
Definition fdiv (x y : num) : result num :=
  if is_zero y then Err ZeroDivisionError else Ok (quo x y).

(** *** Grids: a list of rows, [grid[b][s]] *)

Definition grid : Type := list (list num).

(** [[[0.0]*4 for _ in range(5)]] *)
Definition zeros : grid := repeat (repeat (dec 0 0) 4) 5.

(** [g[b][s]] *)
Definition getitem (g : grid) (b s : nat) : result num :=
  match nth_error g b with
  | Some row =>
      match nth_error row s with
      | Some x => Ok x
      | None => Err IndexError
      end
  | None => Err IndexError
  end.

Fixpoint update {X : Type} (l : list X) (i : nat) (x : X) : list X :=
  match l, i with
  | [], _ => []
  | _ :: l', O => x :: l'
  | y :: l', S i' => y :: update l' i' x
  end.

(** [g[b][s] = x] *)
Definition setitem (g : grid) (b s : nat) (x : num) : result grid :=
  match nth_error g b with
  | Some row =>
      if Nat.ltb s (length row) then Ok (update g b (update row s x))
      else Err IndexError
  | None => Err IndexError
  end.

(** *** [_equilibrium_r] *)

Definition _equilibrium_r (A0 B0 p : num) : result num :=
  let denom := (A0 - B0) + p * (dec 4 0 - B0) in
  if absn denom <? dec 1 (-18) then Ok (dec 0 0)
  else fdiv (p * (dec 4 0 - B0)) denom.

(** *** [_q_of_p] *)

(** The body of the backward induction for [V] and [r]. *)
Definition value_body (p : num) (b s : nat) (st : grid * grid)
  : result (grid * grid) :=
  let '(V, r) := st in
  A0 <- getitem V (b + 1) s ;;
  B0 <- getitem V b (s + 1) ;;
  rr <- _equilibrium_r A0 B0 p ;;
  r <- setitem r b s rr ;;
  V <- setitem V b s (B0 + (A0 - B0) * rr) ;;
  Ok (V, r).

(** The first half of [_q_of_p]: the grids [V] and [r]. *)
Definition value_pass (p : num) : result (grid * grid) :=
  let V := zeros in
  let r := zeros in
  V <- for_each (seq 0 4) (fun s V => setitem V 4 s (dec 1 0)) V ;;
  V <- for_each (seq 0 5) (fun b V => setitem V b 3 (dec 0 0)) V ;;
  for_each [2; 1; 0]%nat (fun s st =>
    for_each [3; 2; 1; 0]%nat (fun b st => value_body p b s st) st) (V, r).

(** The body of the loop for [F]. *)
Definition reach_body (p : num) (r : grid) (b s : nat) (F : grid)
  : result grid :=
  if Nat.eqb b 3 && Nat.eqb s 2 then Ok F
  else
    rr <- getitem r b s ;;
    F1 <- getitem F (b + 1) s ;;
    F2 <- getitem F b (s + 1) ;;
    setitem F b s
      ((rr * rr) * F1
       + (dec 1 0 - rr * rr - (dec 1 0 - rr) * (dec 1 0 - rr) * p) * F2).

(** The second half of [_q_of_p]: the grid [F]. *)
Definition reach_pass (p : num) (r : grid) : result grid :=
  let F := zeros in
  F <- setitem F 3 2 (dec 1 0) ;;
  for_each [2; 1; 0]%nat (fun s F =>
    for_each [3; 2; 1; 0]%nat (fun b F => reach_body p r b s F) F) F.

Definition _q_of_p (p : num) : result num :=
  '(V, r) <- value_pass p ;;
  F <- reach_pass p r ;;
  getitem F 0 0.

End Evaluator.

(** ** The maximizer

    The maximizer calls the function it is given; the arguments of these calls
    are recorded, the latest first. *)

Section State.

Context {St : Type}.

(** Code that reads and writes a state of type [St] and may fail. *)
Definition ST (X : Type) : Type := St -> result (X * St).

Definition ret {X : Type} (x : X) : ST X := fun st => Ok (x, st).

Definition bindM {X Y : Type} (m : ST X) (k : X -> ST Y) : ST Y :=
  fun st => '(x, st') <- m st ;; k x st'.

Definition lift {X : Type} (m : result X) : ST X :=
  fun st => x <- m ;; Ok (x, st).

End State.

Arguments ST St X : clear implicits.

Declare Scope M_scope.
Delimit Scope M_scope with M.
Notation "x <- m ;; k" := (bindM m (fun x => k))
  (at level 61, m at next level, right associativity) : M_scope.
Notation "' pat <- m ;; k" := (bindM m (fun x => match x with pat => k end))
  (at level 61, pat pattern, m at next level, right associativity) : M_scope.

Fixpoint for_eachM {St X S : Type} (xs : list X) (body : X -> S -> ST St S)
    (st : S) : ST St S :=
  match xs with
  | [] => ret st
  | x :: xs' => (st' <- body x st ;; for_eachM xs' body st')%M
  end.

Section Maximizer.

Context {A : Arith}.

Local Open Scope num_scope.

(** The state of the maximizer: the arguments of the calls made so far. *)
Definition M (X : Type) : Type := ST (list num) X.

(** [f(x)] *)
Definition call (f : num -> result num) (x : num) : M num :=
  fun tr => v <- f x ;; Ok (v, x :: tr).

(** *** [_golden_max] *)

(** The variables of the loop. *)
Record bracket : Type := Bracket {
  lo : num;  (* a *)
  hi : num;  (* b *)
  xc : num;  (* c *)
  xd : num;  (* d *)
  fc : num;
  fd : num;
  it : nat
}.

(** [gr = (5**0.5 - 1.0) / 2.0] *)
Definition golden_ratio : result num :=
  fdiv (sqrtn (of_int 5) - dec 1 0) (dec 2 0).

(** [(b-a) > tol and it < max_iter] *)
Definition golden_continue (tol : num) (max_iter : nat) (st : bracket) : bool :=
  (tol <? hi st - lo st) && Nat.ltb (it st) max_iter.

(** The body of the [while] loop. *)
Definition golden_step (f : num -> result num) (gr : num) (st : bracket)
  : M bracket :=
  if fc st <? fd st then
    let a := xc st in
    let c := xd st in
    let fc' := fd st in
    let d := a + gr * (hi st - a) in
    (fd' <- call f d ;;
     ret (Bracket a (hi st) c d fc' fd' (it st + 1)))%M
  else
    let b := xd st in
    let d := xc st in
    let fd' := fc st in
    let c := b - gr * (b - lo st) in
    (fc' <- call f c ;;
     ret (Bracket (lo st) b c d fc' fd' (it st + 1)))%M.

(** The [while] loop, given the number of iterations it may take. *)
Fixpoint golden_loop (f : num -> result num) (gr tol : num) (max_iter : nat)
    (fuel : nat) (st : bracket) : M bracket :=
  if golden_continue tol max_iter st then
    match fuel with
    | O => fun _ => Err OutOfFuel
    | S fuel' =>
        (st' <- golden_step f gr st ;;
         golden_loop f gr tol max_iter fuel' st')%M
    end
  else ret st.

(** The bracket before the first iteration, both interior points evaluated. *)
Definition golden_start (f : num -> result num) (gr a b : num) : M bracket :=
  let c := b - gr * (b - a) in
  let d := a + gr * (b - a) in
  (fc0 <- call f c ;;
   fd0 <- call f d ;;
   ret (Bracket a b c d fc0 fd0 0))%M.

(** [_golden_max(f, a, b, tol, max_iter)]; the defaults of the source are
    [tol = 1e-13] and [max_iter = 200]. *)
Definition _golden_max (f : num -> result num) (a b tol : num) (max_iter : nat)
  : M (num * num) :=
  (gr <- lift golden_ratio ;;
   st0 <- golden_start f gr a b ;;
   st <- golden_loop f gr tol max_iter max_iter st0 ;;
   let x := dec 5 (-1) * (lo st + hi st) in
   fx <- call f x ;;
   ret (x, fx))%M.

(** *** [solve_fast] *)

(** [range(lo, hi)] *)
Definition range (lo hi : Z) : list Z :=
  map (fun k => (lo + Z.of_nat k)%Z) (seq 0 (Z.to_nat (hi - lo))).

(** [max(x, y)] and [min(x, y)] of two floats: the first argument is kept
    unless the second is strictly beyond it. *)
Definition pymax (x y : num) : num := if x <? y then y else x.
Definition pymin (x y : num) : num := if y <? x then y else x.

(** The coarse scan of [solve_fast]: the pair [(best_p, best_q)]. *)
Definition coarse_scan (f : num -> result num) : M (num * num) :=
  let n := 2049%Z in
  let best_p := dec 0 0 in
  let best_q := dec (-1) 0 in
  (step <- lift (fdiv (dec 1 0) (of_int (n - 1))) ;;
   q_prev <- call f (dec 0 0) ;;
   for_eachM (range 1 n) (fun i '(best_p, best_q) =>
     let p := of_int i * step in
     qv <- call f p ;;
     if best_q <? qv then ret (p, qv) else ret (best_p, best_q))
     (best_p, best_q))%M.

Definition solve_with (f : num -> result num) : M (num * num) :=
  ('(best_p, best_q) <- coarse_scan f ;;
   let left := pymax (dec 0 0) (best_p - dec 5 (-2)) in
   let right := pymin (dec 1 0) (best_p + dec 5 (-2)) in
   _golden_max f left right (dec 1 (-14)) 250)%M.

(** [solve_fast()], with [f = _q_of_p]. *)
Definition solve_fast : M (num * num) := solve_with _q_of_p.

End Maximizer.

(** ** The evaluator on a heap

    [_q_of_p] once more, with the lists it builds as objects of a heap: a
    grid is a list of references to its rows, an assignment [g[b][s] = x]
    changes the row object in place, and a new list takes the next free
    address. *)

Module Imp.

Section Heap.

Context {A : Arith}.

Local Open Scope num_scope.

(** An item of a list: a float, or the address of a list. *)
Inductive value : Type :=
| VNum (x : num)
| VRef (l : nat).

(** The objects allocated so far, by address. *)
Definition heap : Type := list (list value).

Definition H (X : Type) : Type := ST heap X.

Definition raise {X : Type} (e : exn) : H X := fun _ => Err e.

(** A new list object. *)
Definition alloc (o : list value) : H nat :=
  fun h => Ok (length h, h ++ [o]).

(** [l[i]] *)
Definition load (l i : nat) : H value :=
  fun h =>
    match nth_error h l with
    | Some o =>
        match nth_error o i with
        | Some v => Ok (v, h)
        | None => Err IndexError
        end
    | None => Err BadAddress
    end.

(** [l[i] = v] *)
Definition store (l i : nat) (v : value) : H unit :=
  fun h =>
    match nth_error h l with
    | Some o =>
        if Nat.ltb i (length o) then Ok (tt, update h l (update o i v))
        else Err IndexError
    | None => Err BadAddress
    end.

(** [[0.0]*4] *)
Definition new_row : H nat := alloc (repeat (VNum (dec 0 0)) 4).

(** [[[0.0]*4 for _ in range(5)]] *)
Definition new_grid : H nat :=
  (rows <- for_eachM (seq 0 5)
             (fun _ rows => l <- new_row ;; ret (rows ++ [VRef l])) [] ;;
   alloc rows)%M.

(** [g[b][s]] *)
Definition getitem (g b s : nat) : H num :=
  (row <- load g b ;;
   match row with
   | VRef l =>
       v <- load l s ;;
       match v with
       | VNum x => ret x
       | VRef _ => raise TypeError
       end
   | VNum _ => raise TypeError
   end)%M.

(** [g[b][s] = x] *)
Definition setitem (g b s : nat) (x : num) : H unit :=
  (row <- load g b ;;
   match row with
   | VRef l => store l s (VNum x)
   | VNum _ => raise TypeError
   end)%M.

(** The two loop bodies and [_q_of_p], on the addresses of the grids. *)
Definition value_body (p : num) (V r : nat) (b s : nat) : H unit :=
  (A0 <- getitem V (b + 1) s ;;
   B0 <- getitem V b (s + 1) ;;
   rr <- lift (_equilibrium_r A0 B0 p) ;;
   _ <- setitem r b s rr ;;
   setitem V b s (B0 + (A0 - B0) * rr))%M.

Definition reach_body (p : num) (r F : nat) (b s : nat) : H unit :=
  if Nat.eqb b 3 && Nat.eqb s 2 then ret tt
  else
    (rr <- getitem r b s ;;
     F1 <- getitem F (b + 1) s ;;
     F2 <- getitem F b (s + 1) ;;
     setitem F b s
       ((rr * rr) * F1
        + (dec 1 0 - rr * rr - (dec 1 0 - rr) * (dec 1 0 - rr) * p) * F2))%M.

Definition _q_of_p (p : num) : H num :=
  (V <- new_grid ;;
   r <- new_grid ;;
   _ <- for_eachM (seq 0 4) (fun s _ => setitem V 4 s (dec 1 0)) tt ;;
   _ <- for_eachM (seq 0 5) (fun b _ => setitem V b 3 (dec 0 0)) tt ;;
   _ <- for_eachM [2; 1; 0]%nat (fun s _ =>
          for_eachM [3; 2; 1; 0]%nat (fun b _ => value_body p V r b s) tt) tt ;;
   F <- new_grid ;;
   _ <- setitem F 3 2 (dec 1 0) ;;
   _ <- for_eachM [2; 1; 0]%nat (fun s _ =>
          for_eachM [3; 2; 1; 0]%nat (fun b _ => reach_body p r F b s) tt) tt ;;
   getitem F 0 0)%M.

End Heap.

End Imp.

(** * Part II: the two arithmetics *)

(** ** Python's floats: IEEE 754 binary64 *)

Module B64.

(** [float(z)] for an integer below [2^63] in absolute value. *)
Definition of_int (z : Z) : float :=
  match z with
  | Z0 => 0%float
  | Zpos _ => of_uint63 (Uint63.of_Z z)
  | Zneg q => (- of_uint63 (Uint63.of_Z (Zpos q)))%float
  end.

(** The literal [m * 10^e].  For the literals of this program [m] and
    [10^|e|] are binary64 numbers, so that one correctly rounded division gives
    the binary64 number nearest to the decimal. *)
Definition dec (m e : Z) : float :=
  match e with
  | Zneg q => (of_int m / of_int (Z.pow 10 (Zpos q)))%float
  | _ => of_int (m * Z.pow 10 e)
  end.

(** [y == 0.0]: true of both zeros. *)
Definition is_zero (y : float) : bool := PrimFloat.eqb y 0%float.

(** The literals of the program are the binary64 numbers that the decimal
    notation of floats denotes. *)
Lemma literals :
  dec 0 0 = 0%float /\ dec 1 0 = 1%float /\ dec 2 0 = 2%float
  /\ dec 4 0 = 4%float /\ dec (-1) 0 = (-1)%float
  /\ dec 5 (-1) = 0.5%float /\ dec 5 (-2) = 0.05%float
  /\ dec 1 (-14) = 1e-14%float /\ dec 1 (-18) = 1e-18%float.
Proof.
  repeat split; reflexivity.
Qed.

Lemma zero_cases (x : spec_float) :
  SFeqb x (S754_zero false) = true -> exists s, x = S754_zero s.
Proof.
  destruct x as [s | s | | s m e]; cbn.
  - intros _. now exists s.
  - destruct s; discriminate.
  - discriminate.
  - destruct s; discriminate.
Qed.

Lemma small_zero_binary64 (d : float) :
  PrimFloat.ltb (abs d) (dec 1 (-18)) = false -> is_zero d = false.
Proof.
  intros H. unfold is_zero.
  destruct (PrimFloat.eqb d 0) eqn:E; [ | reflexivity ].
  rewrite FloatAxioms.eqb_spec in E.
  change (Prim2SF 0) with (S754_zero false) in E.
  destruct (zero_cases _ E) as [s Hs].
  rewrite FloatAxioms.ltb_spec, FloatAxioms.abs_spec, Hs in H.
  vm_compute in H. discriminate.
Qed.

Lemma SFcompare_antisym (x y : spec_float) :
  SFcompare y x = option_map CompOpp (SFcompare x y).
Proof.
  destruct x as [sx | sx | | sx mx ex], y as [sy | sy | | sy my ey]; cbn;
    try reflexivity;
    try (destruct sx; reflexivity);
    try (destruct sy; reflexivity);
    try (destruct sx, sy; reflexivity).
  destruct sx, sy; cbn; try reflexivity;
    rewrite (Z.compare_antisym ex ey);
    destruct (ex ?= ey)%Z; cbn; try reflexivity;
    change (PosDef.Pos.compare_cont Eq my mx) with (my ?= mx)%positive;
    change (PosDef.Pos.compare_cont Eq mx my) with (mx ?= my)%positive;
    rewrite (Pos.compare_antisym mx my);
    destruct (mx ?= my)%positive; reflexivity.
Qed.

Lemma leb_not_ltb_binary64 (x y : float) :
  PrimFloat.leb x y = true -> PrimFloat.ltb y x = false.
Proof.
  rewrite FloatAxioms.leb_spec, FloatAxioms.ltb_spec. unfold SFleb, SFltb.
  rewrite (SFcompare_antisym (Prim2SF x) (Prim2SF y)).
  destruct (SFcompare (Prim2SF x) (Prim2SF y)) as [[ | | ] | ]; cbn;
    intros; try reflexivity; discriminate.
Qed.

End B64.

(** [5 ** 0.5] is taken as the correctly rounded square root of [5.0]. *)
#[export] Instance binary64 : Arith := {|
  num := float;
  dec := B64.dec;
  of_int := B64.of_int;
  add := PrimFloat.add;
  sub := PrimFloat.sub;
  mul := PrimFloat.mul;
  quo := PrimFloat.div;
  is_zero := B64.is_zero;
  absn := PrimFloat.abs;
  ltb := PrimFloat.ltb;
  leb := PrimFloat.leb;
  sqrtn := PrimFloat.sqrt;
  small_zero := B64.small_zero_binary64;
  leb_not_ltb := B64.leb_not_ltb_binary64;
  two_not_zero := eq_refl;
  scan_steps_not_zero := eq_refl
|}.

(** ** Exact arithmetic: the real numbers *)

Module Exact.

Local Open Scope R_scope.

Definition dec (m e : Z) : R := IZR m * powerRZ 10 e.
Definition is_zero (y : R) : bool := if Req_dec_T y 0 then true else false.
Definition ltb (x y : R) : bool := if Rlt_dec x y then true else false.
Definition leb (x y : R) : bool := if Rle_dec x y then true else false.

Lemma eps_pos : 0 < dec 1 (-18).
Proof.
  unfold dec. rewrite Rmult_1_l. apply powerRZ_lt. lra.
Qed.

Lemma small_zero_exact (d : R) :
  ltb (Rabs d) (dec 1 (-18)) = false -> is_zero d = false.
Proof.
  unfold ltb, is_zero. intros H.
  destruct (Req_dec_T d 0) as [E | E]; [ | reflexivity ].
  subst d. rewrite Rabs_R0 in H.
  destruct (Rlt_dec 0 (dec 1 (-18))) as [L | L]; [ discriminate | ].
  elim L. apply eps_pos.
Qed.

Lemma leb_not_ltb_exact (x y : R) : leb x y = true -> ltb y x = false.
Proof.
  unfold leb, ltb. intros H.
  destruct (Rle_dec x y) as [L | L]; [ | discriminate ].
  destruct (Rlt_dec y x) as [G | G]; [ lra | reflexivity ].
Qed.

Lemma two_not_zero_exact : is_zero (dec 2 0) = false.
Proof.
  unfold is_zero, dec. cbn [powerRZ].
  destruct (Req_dec_T (2 * 1) 0) as [E | E]; [ lra | reflexivity ].
Qed.

Lemma scan_steps_not_zero_exact : is_zero (IZR 2048) = false.
Proof.
  unfold is_zero.
  destruct (Req_dec_T 2048 0) as [E | E]; [ lra | reflexivity ].
Qed.

End Exact.

#[export] Instance exact : Arith := {|
  num := R;
  dec := Exact.dec;
  of_int := IZR;
  add := Rplus;
  sub := Rminus;
  mul := Rmult;
  quo := Rdiv;
  is_zero := Exact.is_zero;
  absn := Rabs;
  ltb := Exact.ltb;
  leb := Exact.leb;
  sqrtn := sqrt;
  small_zero := Exact.small_zero_exact;
  leb_not_ltb := Exact.leb_not_ltb_exact;
  two_not_zero := Exact.two_not_zero_exact;
  scan_steps_not_zero := Exact.scan_steps_not_zero_exact
|}.

(** * Part III: the vocabulary of the statements *)

Section Vocabulary.

Context {A : Arith}.

Local Open Scope num_scope.

(** ** The evaluator *)

(** The value [_equilibrium_r] returns. *)
Definition r_of (A0 B0 p : num) : num :=
  let denom := (A0 - B0) + p * (dec 4 0 - B0) in
  if absn denom <? dec 1 (-18) then dec 0 0
  else quo (p * (dec 4 0 - B0)) denom.

(** A grid of 5 rows of 4 numbers. *)
Definition shape (g : grid) : Prop :=
  length g = 5%nat /\ Forall (fun row => length row = 4%nat) g.

Definition cell (g : grid) (b s : nat) : num :=
  nth s (nth b g []) (dec 0 0).

(** The order of the two backward sweeps: [s] descending, and [b] descending
    within each [s]. *)
Definition sweep : list (nat * nat) :=
  [(3, 2); (2, 2); (1, 2); (0, 2);
   (3, 1); (2, 1); (1, 1); (0, 1);
   (3, 0); (2, 0); (1, 0); (0, 0)]%nat.

(** What the first half of [_q_of_p] leaves in [V] and [r]. *)
Definition value_spec (p : num) (V r : grid) : Prop :=
  shape V /\ shape r
  /\ (forall s, (s < 3)%nat -> getitem V 4 s = Ok (dec 1 0))
  /\ (forall b, (b < 5)%nat -> getitem V b 3 = Ok (dec 0 0))
  /\ (forall b s, (b < 4)%nat -> (s < 3)%nat ->
        exists A0 B0,
          getitem V (b + 1) s = Ok A0 /\ getitem V b (s + 1) = Ok B0
          /\ getitem r b s = Ok (r_of A0 B0 p)
          /\ getitem V b s = Ok (B0 + (A0 - B0) * r_of A0 B0 p)).

(** What the second half of [_q_of_p] leaves in [F], given the grid [r]. *)
Definition reach_spec (p : num) (r F : grid) : Prop :=
  shape F
  /\ getitem F 3 2 = Ok (dec 1 0)
  /\ (forall s, (s < 4)%nat -> getitem F 4 s = Ok (dec 0 0))
  /\ (forall b, (b < 5)%nat -> getitem F b 3 = Ok (dec 0 0))
  /\ (forall b s, (b < 4)%nat -> (s < 3)%nat -> (b, s) <> (3, 2)%nat ->
        exists rr F1 F2,
          getitem r b s = Ok rr
          /\ getitem F (b + 1) s = Ok F1 /\ getitem F b (s + 1) = Ok F2
          /\ getitem F b s
             = Ok ((rr * rr) * F1
                   + (dec 1 0 - rr * rr - (dec 1 0 - rr) * (dec 1 0 - rr) * p)
                     * F2)).

(** [0 <= x <= 1], decided with the comparisons of the arithmetic. *)
Definition in_unit (x : num) : bool := (dec 0 0 <=? x) && (x <=? dec 1 0).

(** [0 <= g[b][s] <= 1] for [b < nb] and [s < ns]. *)
Definition cells_in_unit (g : grid) (nb ns : nat) : bool :=
  forallb (fun b =>
    forallb (fun s =>
      match getitem g b s with
      | Ok x => in_unit x
      | Err _ => false
      end) (seq 0 ns)) (seq 0 nb).

(** The mixing probabilities [r] and the reach probabilities [F] at [p]. *)
Definition mixes_in_unit (p : num) : bool :=
  match value_pass p with
  | Ok (V, r) => cells_in_unit r 4 3
  | Err _ => false
  end.

Definition reach_in_unit (p : num) : bool :=
  match value_pass p with
  | Ok (V, r) =>
      match reach_pass p r with
      | Ok F => cells_in_unit F 5 4
      | Err _ => false
      end
  | Err _ => false
  end.

(** ** The maximizer *)

(** The [i]-th point of the coarse scan, [i * step]. *)
Definition scan_point (i : Z) : num :=
  of_int i * quo (dec 1 0) (of_int 2048).

(** [f(x) <= bound], for a call that returns. *)
Definition value_at_most (f : num -> result num) (bound x : num) : bool :=
  match f x with
  | Ok q => q <=? bound
  | Err _ => false
  end.

(** [k] iterations of the body of the golden-section loop. *)
Fixpoint golden_iter (f : num -> result num) (gr : num) (k : nat) (st : bracket)
  : M bracket :=
  match k with
  | O => ret st
  | S k' => (st' <- golden_step f gr st ;; golden_iter f gr k' st')%M
  end.

(** The function called never fails. *)
Definition total (f : num -> result num) : Prop :=
  forall x, exists v, f x = Ok v.

(** One iteration keeps one end of the bracket and moves the other end to an
    interior point. *)
Definition narrows (st st' : bracket) : Prop :=
  (lo st' = xc st /\ hi st' = hi st) \/ (lo st' = lo st /\ hi st' = xd st).

(** ** Grids on the heap *)

(** The objects of a grid allocated at [base]: its rows, then the list of
    the references to them. *)
Definition enc (base : nat) (G : grid) : Imp.heap :=
  map (map Imp.VNum) G ++ [map Imp.VRef (seq base (length G))].

(** A grid [G] allocated at [length pre], somewhere in the heap. *)
Definition around (pre : Imp.heap) (G : grid) (post : Imp.heap) : Imp.heap :=
  pre ++ enc (length pre) G ++ post.

(** The heap that was [h0] while [V] and [r] are live, and once [F] is too. *)
Definition heap2 (h0 : Imp.heap) (st : grid * grid) : Imp.heap :=
  h0 ++ enc (length h0) (fst st) ++ enc (length h0 + 6) (snd st).

Definition heap3 (h0 : Imp.heap) (V r F : grid) : Imp.heap :=
  h0 ++ enc (length h0) V ++ enc (length h0 + 6) r
     ++ enc (length h0 + 12) F.

Definition five2 (st : grid * grid) : Prop :=
  length (fst st) = 5%nat /\ length (snd st) = 5%nat.

(** ** Further vocabulary: what the maximizer keeps *)

(** [f] computes the function [g] and never fails. *)
Definition computes (f : num -> result num) (g : num -> num) : Prop :=
  forall x, f x = Ok (g x).

(** The values kept in [fc] and [fd] are those of [f] at the interior points
    [c] and [d]. *)
Definition cached (f : num -> result num) (st : bracket) : Prop :=
  f (xc st) = Ok (fc st) /\ f (xd st) = Ok (fd st).

End Vocabulary.

(** ** Exact arithmetic *)

(** [0 <= g[b][s] <= 1] for [b < nb] and [s < ns]. *)
Definition unit_cells (g : grid (A := exact)) (nb ns : nat) : Prop :=
  forall b s, (b < nb)%nat -> (s < ns)%nat ->
    exists x, getitem g b s = Ok x /\ (0 <= x <= 1)%R.

(** [(sqrt(5) - 1) / 2] *)
Definition phi_inv : R := ((sqrt 5 - 1) / 2)%R.

(** The interior points sit where the golden section puts them. *)
Definition placed (gr : R) (st : bracket (A := exact)) : Prop :=
  (xc st = hi st - gr * (hi st - lo st)
   /\ xd st = lo st + gr * (hi st - lo st))%R.

(** [g] has its maximum on [[a, b]] at [m]: it increases strictly up to [m]
    and decreases strictly from [m] on. *)
Definition unimodal_on (g : R -> R) (a b m : R) : Prop :=
  (a <= m <= b
   /\ (forall x y, a <= x -> x < y -> y <= m -> g x < g y)
   /\ (forall x y, m <= x -> x < y -> y <= b -> g y < g x))%R.

(** Each value of a state [(b, s)] with [b < 4] and [s < 3] lies between
    the value after a strike and the value after a ball, all of them in
    [[0, 1]]. *)
Definition monotone_cells (V : grid (A := exact)) : Prop :=
  forall b s, (b < 4)%nat -> (s < 3)%nat ->
    exists v A0 B0,
      getitem V b s = Ok v
      /\ getitem V (b + 1) s = Ok A0 /\ getitem V b (s + 1) = Ok B0
      /\ (0 <= B0 <= v /\ v <= A0 <= 1)%R.

(** * Part IV: the proofs *)

(** ** The equilibrium mixing function *)

Section EvaluatorFacts.

Context {A : Arith}.

Local Open Scope num_scope.

Lemma equilibrium_r_ok (A0 B0 p : num) :
  _equilibrium_r A0 B0 p = Ok (r_of A0 B0 p).
Proof.
  unfold _equilibrium_r, r_of, fdiv; cbv zeta.
  destruct (absn (A0 - B0 + p * (dec 4 0 - B0)) <? dec 1 (-18)) eqn:G.
  - reflexivity.
  - now rewrite (small_zero _ G).
Qed.

(** C3. For all scalars [A], [B] and [p], with
    [denom = (A-B) + p*(4-B)]: when [|denom| < 1e-18] the function returns
    [0.0], and when [|denom| >= 1e-18] it returns the quotient
    [p*(4-B) / denom]; it returns a value and nothing else, whatever the
    arithmetic. *)
Theorem equilibrium_r_cases (A0 B0 p : num) :
  let denom := (A0 - B0) + p * (dec 4 0 - B0) in
  ((absn denom <? dec 1 (-18)) = true ->
     _equilibrium_r A0 B0 p = Ok (dec 0 0))
  /\ ((dec 1 (-18) <=? absn denom) = true ->
        _equilibrium_r A0 B0 p = Ok (quo (p * (dec 4 0 - B0)) denom)).
Proof.
  cbv zeta. rewrite equilibrium_r_ok. unfold r_of; cbv zeta. split; intros H.
  - now rewrite H.
  - now rewrite (leb_not_ltb _ _ H).
Qed.

End EvaluatorFacts.

(** The two cases on binary64: [A = B = p = 0], and [A = 1], [B = 0],
    [p = 0.5], where the quotient is [2 / 3]. *)
Lemma equilibrium_r_cases_witness :
  _equilibrium_r (A := binary64) 0%float 0%float 0%float = Ok 0%float
  /\ _equilibrium_r (A := binary64) 1%float 0%float 0.5%float
     = Ok (2 / 3)%float.
Proof.
  split.
  - apply (proj1 (equilibrium_r_cases (A := binary64) 0%float 0%float 0%float)).
    reflexivity.
  - apply (proj2 (equilibrium_r_cases (A := binary64) 1%float 0%float
                    0.5%float)).
    reflexivity.
Defined.

(** ** The two passes of the evaluator, cell by cell *)

(** One cell of the backward induction, run on grids whose rows are
    written out; the values it stores are named and kept by their equations. *)
Ltac run_grid_ops :=
  cbn [for_each bind getitem setitem nth_error update length
       Nat.ltb Nat.leb Nat.eqb Nat.add andb map].

Ltac value_cell :=
  unfold value_body at 1;
  run_grid_ops;
  rewrite equilibrium_r_ok;
  run_grid_ops;
  lazymatch goal with
  | |- context [r_of ?a ?b ?p] =>
      let rv := fresh "r" in
      let Er := fresh "Er" in
      remember (r_of a b p) as rv eqn:Er;
      let vv := fresh "v" in
      let Ev := fresh "Ev" in
      remember (add b (mul (sub a b) rv)) as vv eqn:Ev
  end.

(** The cell [(3,2)] of the second sweep is skipped. *)
Ltac reach_skip :=
  unfold reach_body at 1;
  run_grid_ops.

Ltac reach_cell :=
  unfold reach_body at 1;
  run_grid_ops;
  lazymatch goal with
  | |- context [add (mul (mul ?rr ?rr) ?f1) (mul ?c ?f2)] =>
      let fv := fresh "f" in
      let Ef := fresh "Ef" in
      remember (add (mul (mul rr rr) f1) (mul c f2)) as fv eqn:Ef
  end.

Section Sweep.

Context {A : Arith}.

Local Open Scope num_scope.

Lemma row_cells (row : list num) :
  length row = 4%nat ->
  row = map (fun s => nth s row (dec 0 0)) [0; 1; 2; 3]%nat.
Proof.
  destruct row as [ | x0 [ | x1 [ | x2 [ | x3 [ | x4 row]]]]]; try discriminate.
  reflexivity.
Qed.

Lemma shape_cells (g : grid) :
  shape g ->
  g = map (fun b => map (fun s => cell g b s) [0; 1; 2; 3]%nat)
        [0; 1; 2; 3; 4]%nat.
Proof.
  intros [Hl Hr].
  destruct g as [ | g0 [ | g1 [ | g2 [ | g3 [ | g4 [ | g5 g]]]]]];
    try discriminate.
  repeat match goal with
         | H : Forall _ (_ :: _) |- _ => inversion H; subst; clear H
         end.
  unfold cell; cbn [map nth].
  repeat (f_equal; try now apply row_cells).
Qed.

Lemma shape_getitem (g : grid) (b s : nat) :
  shape g -> (b < 5)%nat -> (s < 4)%nat -> getitem g b s = Ok (cell g b s).
Proof.
  intros Hg Hb Hs. rewrite (shape_cells g Hg) at 1.
  do 5 (destruct b as [ | b];
        [ do 4 (destruct s as [ | s]; [ reflexivity | ]); lia | ]).
  lia.
Qed.

Ltac cases_below b :=
  repeat (destruct b as [ | b]; [ | try lia ]); try lia.

Lemma value_pass_run (p : num) :
  match value_pass p with
  | Ok (V, r) => value_spec p V r
  | Err _ => False
  end.
Proof.
  unfold value_pass, zeros.
  cbn [repeat seq]. run_grid_ops.
  do 12 value_cell.
  run_grid_ops.
  unfold value_spec.
  split; [ split; [ reflexivity | repeat constructor ] | ].
  split; [ split; [ reflexivity | repeat constructor ] | ].
  split; [ intros s Hs; cases_below s; reflexivity | ].
  split; [ intros b Hb; cases_below b; reflexivity | ].
  intros b s Hb Hs.
  cases_below b; cases_below s; cbn [getitem nth_error Nat.add];
    do 2 eexists; (split; [ reflexivity | ]); (split; [ reflexivity | ]);
    split; congruence.
Qed.

Lemma reach_pass_run (p : num) (r : grid) :
  shape r ->
  match reach_pass p r with
  | Ok F => reach_spec p r F
  | Err _ => False
  end.
Proof.
  intros Hr. rewrite (shape_cells r Hr).
  unfold reach_pass, zeros.
  cbn [repeat]. run_grid_ops.
  reach_skip.
  do 11 reach_cell.
  run_grid_ops.
  unfold reach_spec.
  split; [ split; [ reflexivity | repeat constructor ] | ].
  split; [ reflexivity | ].
  split; [ intros s Hs; cases_below s; reflexivity | ].
  split; [ intros b Hb; cases_below b; reflexivity | ].
  intros b s Hb Hs Hne.
  cases_below b; cases_below s; try (now elim Hne);
    cbn [getitem nth_error Nat.add];
    do 3 eexists; (split; [ reflexivity | ]); (split; [ reflexivity | ]);
    (split; [ reflexivity | ]); congruence.
Qed.

(** [_q_of_p] returns, and what it returns is [F[0][0]]. *)
Lemma q_of_p_run (p : num) :
  exists V r F,
    value_pass p = Ok (V, r) /\ value_spec p V r
    /\ reach_pass p r = Ok F /\ reach_spec p r F
    /\ _q_of_p p = getitem F 0 0.
Proof.
  pose proof (value_pass_run p) as HV. unfold _q_of_p.
  destruct (value_pass p) as [[V r] | e] eqn:EV; [ | contradiction ].
  pose proof (reach_pass_run p r (proj1 (proj2 HV))) as HF.
  destruct (reach_pass p r) as [F | e] eqn:EF; [ | contradiction ].
  exists V, r, F. cbn [bind]. rewrite EF. cbn [bind]. auto.
Qed.

Lemma for_each_nest {S : Type} (body : nat -> nat -> S -> result S) (st : S) :
  for_each [2; 1; 0]%nat (fun s st =>
    for_each [3; 2; 1; 0]%nat (fun b st => body b s st) st) st
  = for_each sweep (fun '(b, s) st => body b s st) st.
Proof.
  unfold sweep. cbn [for_each].
  repeat (destruct (body _ _ _) as [? | ?]; cbn [bind]; [ | reflexivity ]).
  reflexivity.
Qed.

Lemma q_of_p_ok (p : num) : exists q, _q_of_p p = Ok q.
Proof.
  destruct (q_of_p_run p) as (V & r & F & _ & _ & _ & HF & Eq).
  exists (cell F 0 0). rewrite Eq.
  apply shape_getitem; [ apply HF | lia | lia ].
Qed.

(** C1. For every [p] the evaluator returns [F[0][0]], where [F] is the grid
    of the second sweep: [F[3][2] = 1.0], and every other state [(b,s)] with
    [b] in 0..3 and [s] in 0..2, taken in the order of [sweep], holds
    [rr^2 * F[b+1][s] + (1 - rr^2 - (1-rr)^2 * p) * F[b][s+1]] with
    [rr = r[b][s]] of the value pass. *)
Theorem reach_pass_recurrence (p : num) :
  exists V r F q,
    value_pass p = Ok (V, r) /\ reach_pass p r = Ok F
    /\ reach_pass p r
       = (F0 <- setitem zeros 3 2 (dec 1 0) ;;
          for_each sweep (fun '(b, s) F => reach_body p r b s F) F0)
    /\ getitem F 3 2 = Ok (dec 1 0)
    /\ (forall b s, (b < 4)%nat -> (s < 3)%nat -> (b, s) <> (3, 2)%nat ->
          exists rr F1 F2,
            getitem r b s = Ok rr
            /\ getitem F (b + 1) s = Ok F1 /\ getitem F b (s + 1) = Ok F2
            /\ getitem F b s
               = Ok ((rr * rr) * F1
                     + (dec 1 0 - rr * rr
                        - (dec 1 0 - rr) * (dec 1 0 - rr) * p) * F2))
    /\ getitem F 0 0 = Ok q /\ _q_of_p p = Ok q.
Proof.
  destruct (q_of_p_run p) as (V & r & F & EV & HV & EF & HF & Eq).
  destruct HF as (HsF & H32 & H4 & H3 & Hrec).
  exists V, r, F, (cell F 0 0).
  assert (E00 : getitem F 0 0 = Ok (cell F 0 0))
    by (apply shape_getitem; [ assumption | lia | lia ]).
  repeat split; try assumption.
  - unfold reach_pass; cbv zeta.
    destruct (setitem zeros 3 2 (dec 1 0)) as [F0 | e]; cbn [bind];
      [ apply for_each_nest | reflexivity ].
  - now rewrite Eq.
Qed.

(** C2, as the code has it. For every [p] the value pass returns grids [V] and
    [r] with [V[4][s] = 1.0] for [s] in 0..2 and [V[b][3] = 0.0] for every [b]
    in 0..4 (the cell [(4,3)] is written twice and keeps the later [0.0]), and
    for every state [(b,s)] with [b] in 0..3 and [s] in 0..2, taken in the
    order of [sweep]: with [A = V[b+1][s]] and [B = V[b][s+1]], [r[b][s]] is
    what the equilibrium mixing function returns on [A], [B], [p], and
    [V[b][s] = B + (A - B) * r[b][s]]. *)
Theorem value_pass_recurrence (p : num) :
  exists V r,
    value_pass p = Ok (V, r)
    /\ value_pass p
       = (V1 <- for_each (seq 0 4) (fun s V => setitem V 4 s (dec 1 0)) zeros ;;
          V2 <- for_each (seq 0 5) (fun b V => setitem V b 3 (dec 0 0)) V1 ;;
          for_each sweep (fun '(b, s) st => value_body p b s st) (V2, zeros))
    /\ (forall s, (s < 3)%nat -> getitem V 4 s = Ok (dec 1 0))
    /\ (forall b, (b < 5)%nat -> getitem V b 3 = Ok (dec 0 0))
    /\ (forall b s, (b < 4)%nat -> (s < 3)%nat ->
          exists A0 B0 rr,
            getitem V (b + 1) s = Ok A0 /\ getitem V b (s + 1) = Ok B0
            /\ _equilibrium_r A0 B0 p = Ok rr
            /\ getitem r b s = Ok rr
            /\ getitem V b s = Ok (B0 + (A0 - B0) * rr)).
Proof.
  destruct (q_of_p_run p) as (V & r & F & EV & HV & _).
  destruct HV as (_ & _ & H4 & H3 & Hrec).
  exists V, r. split; [ exact EV | ].
  split.
  { unfold value_pass; cbv zeta.
    destruct (for_each (seq 0 4) _ zeros) as [V1 | e]; cbn [bind];
      [ | reflexivity ].
    destruct (for_each (seq 0 5) _ V1) as [V2 | e]; cbn [bind];
      [ apply for_each_nest | reflexivity ]. }
  split; [ exact H4 | ]. split; [ exact H3 | ].
  intros b s Hb Hs.
  destruct (Hrec b s Hb Hs) as (A0 & B0 & HA & HB & Hr & Hv).
  exists A0, B0, (r_of A0 B0 p).
  rewrite equilibrium_r_ok. auto.
Qed.

(** C10. The evaluator returns a number for every input [p], in every
    arithmetic: the division of the mixing function is never by zero, and no
    index is out of range. *)
Theorem q_of_p_total (p : num) :
  (forall A0 B0, exists rr, _equilibrium_r A0 B0 p = Ok rr)
  /\ exists q, _q_of_p p = Ok q
               /\ _q_of_p p <> Err ZeroDivisionError
               /\ _q_of_p p <> Err IndexError.
Proof.
  split.
  - intros A0 B0. exists (r_of A0 B0 p). apply equilibrium_r_ok.
  - destruct (q_of_p_ok p) as [q Hq].
    exists q. rewrite Hq. repeat split; discriminate.
Qed.

End Sweep.

(** C2 as stated asks for [V[4][3] = 1.0]; the cell holds [0.0]. *)
Lemma value_pass_cell_4_3 :
  exists V r,
    value_pass (A := binary64) 0.5%float = Ok (V, r)
    /\ getitem V 4 3 = Ok 0%float
    /\ getitem V 4 3 <> Ok 1%float.
Proof.
  eexists. eexists. split; [ vm_compute; reflexivity | ].
  split; [ reflexivity | ].
  cbn. intros H.
  apply (f_equal (fun m => match m with
                           | Ok x => PrimFloat.is_zero x
                           | Err _ => false
                           end)) in H.
  vm_compute in H. discriminate.
Qed.

(** ** Bounds in exact arithmetic *)

Section ExactBounds.

Local Open Scope R_scope.

Lemma dec_0 : dec (Arith := exact) 0 0 = 0.
Proof. cbn. unfold Exact.dec. cbn. lra. Qed.

Lemma dec_1 : dec (Arith := exact) 1 0 = 1.
Proof. cbn. unfold Exact.dec. cbn. lra. Qed.

Lemma dec_4 : dec (Arith := exact) 4 0 = 4.
Proof. cbn. unfold Exact.dec. cbn. lra. Qed.

(** The mixing probability of a cell whose continuation values are ordered. *)
Lemma r_of_bounds (p a b : R) :
  0 <= p -> b <= a -> b <= 1 ->
  0 <= r_of (A := exact) a b p <= 1.
Proof.
  intros Hp Hab Hb. unfold r_of; cbv zeta.
  rewrite dec_4.
  destruct (ltb _ _) eqn:G; [ rewrite dec_0; lra | ].
  cbn [ltb absn add sub mul quo exact] in *.
  unfold Exact.ltb in G.
  destruct (Rlt_dec _ _) as [L | L]; [ discriminate | ].
  pose proof Exact.eps_pos as He.
  set (x := p * (4 - b)) in *.
  assert (Hx : 0 <= x) by (unfold x; nra).
  assert (Hd : 0 < a - b + x).
  { destruct (Rle_lt_dec (a - b + x) 0) as [N | P]; [ | exact P ].
    assert (E : a - b + x = 0) by lra.
    elim L. rewrite E, Rabs_R0. exact He. }
  split.
  - apply Rmult_le_pos; [ exact Hx | left; now apply Rinv_0_lt_compat ].
  - apply (Rmult_le_reg_r (a - b + x)); [ exact Hd | ].
    unfold Rdiv. rewrite Rmult_assoc, Rinv_l by lra. lra.
Qed.

Lemma value_cell_bounds (p a b rv vv : R) :
  0 <= p -> b <= a -> b <= 1 ->
  rv = r_of (A := exact) a b p ->
  vv = b + (a - b) * rv ->
  (0 <= rv <= 1) /\ (b <= vv <= a).
Proof.
  intros Hp Hab Hb -> ->.
  pose proof (r_of_bounds p a b Hp Hab Hb) as Hr.
  split; [ exact Hr | nra ].
Qed.

Lemma reach_cell_bounds (p rr f1 f2 fv : R) :
  0 <= p <= 1 -> 0 <= rr <= 1 -> 0 <= f1 <= 1 -> 0 <= f2 <= 1 ->
  fv = rr * rr * f1 + (1 - rr * rr - (1 - rr) * (1 - rr) * p) * f2 ->
  0 <= fv <= 1.
Proof.
  intros Hp Hr H1 H2 ->.
  assert (Hs : 0 <= rr * rr) by nra.
  assert (Ht : 0 <= (1 - rr) * (1 - rr)) by nra.
  assert (Hm : 0 <= rr * (1 - rr)) by nra.
  assert (Hq : 0 <= (1 - rr) * (1 - rr) * p <= (1 - rr) * (1 - rr)) by nra.
  assert (Hc : 0 <= 1 - rr * rr - (1 - rr) * (1 - rr) * p) by nra.
  assert (H3 : 0 <= rr * rr * f1 <= rr * rr) by nra.
  assert (H4 : 0 <= (1 - rr * rr - (1 - rr) * (1 - rr) * p) * f2
               <= 1 - rr * rr - (1 - rr) * (1 - rr) * p) by nra.
  split; lra.
Qed.

(** The two sweeps in exact arithmetic, each stored value with its bounds. *)
Ltac exact_value_cell :=
  value_cell;
  lazymatch goal with
  | Er : ?rv = r_of ?a ?b ?p, Ev : ?vv = _ |- _ =>
      let Hb := fresh "Hb" in
      assert (Hb : (0 <= rv <= 1) /\ (b <= vv <= a))
        by (apply (value_cell_bounds p a b rv vv);
            [ lra
            | rewrite ?dec_0, ?dec_1; lra
            | rewrite ?dec_0, ?dec_1; lra
            | exact Er
            | exact Ev ]);
      rewrite ?dec_0, ?dec_1 in Hb;
      clear Er Ev
  end.

Ltac exact_reach_cell p :=
  reach_cell;
  lazymatch goal with
  | Ef : ?fv = add (mul (mul ?rr ?rr) ?f1) (mul _ ?f2) |- _ =>
      let Hb := fresh "Hb" in
      rewrite ?dec_0, ?dec_1 in Ef;
      lazymatch type of Ef with
      | _ = add (mul (mul _ _) ?g1) (mul _ ?g2) =>
          assert (Hb : 0 <= fv <= 1)
            by (apply (reach_cell_bounds p rr g1 g2 fv);
                [ lra | lra | lra | lra | exact Ef ])
      end;
      clear Ef
  end.

Lemma exact_run (p : R) :
  0 <= p <= 1 ->
  match value_pass (A := exact) p with
  | Ok (V, r) =>
      match reach_pass p r with
      | Ok F => unit_cells V 5 4 /\ unit_cells r 4 3 /\ unit_cells F 5 4
      | Err _ => False
      end
  | Err _ => False
  end.
Proof.
  intros Hp.
  unfold value_pass, zeros.
  cbn [repeat seq]. run_grid_ops.
  do 12 exact_value_cell.
  run_grid_ops.
  unfold reach_pass, zeros.
  cbn [repeat]. run_grid_ops.
  reach_skip.
  do 11 (exact_reach_cell p).
  run_grid_ops. rewrite ?dec_0, ?dec_1.
  unfold unit_cells.
  repeat split; intros b s Hb' Hs';
    repeat (destruct b as [ | b]; [ | try lia ]); try lia;
    repeat (destruct s as [ | s]; [ | try lia ]); try lia;
    cbn [getitem nth_error]; eexists; (split; [ reflexivity | lra ]).
Qed.

End ExactBounds.

(** ** The maximizer on binary64 *)

Lemma in_range (lo hi i : Z) : (lo <= i < hi)%Z -> In i (range lo hi).
Proof.
  intros H. unfold range. apply in_map_iff.
  exists (Z.to_nat (i - lo)). split; [ lia | apply in_seq; lia ].
Qed.

Lemma range_forallb (P : Z -> Prop) (c : Z -> bool) (lo hi : Z) :
  (forall i, c i = true -> P i) ->
  forallb c (range lo hi) = true ->
  forall i, (lo <= i < hi)%Z -> P i.
Proof.
  intros Hc Hall i Hi. apply Hc.
  rewrite forallb_forall in Hall. apply Hall. now apply in_range.
Qed.

Section Scan.

Context {A : Arith}.

Local Open Scope num_scope.

Lemma value_at_most_true (f : num -> result num) (bound x : num) :
  value_at_most f bound x = true ->
  exists q, f x = Ok q /\ (q <=? bound) = true.
Proof.
  unfold value_at_most. destruct (f x) as [q | e]; [ | discriminate ].
  intros H. now exists q.
Qed.

End Scan.

(** C4. On binary64 the coarse scan calls [_q_of_p] at the 2049 points
    [i * step], [i = 0..2048], in this order; each is [i / 2048]; the pair
    [(best_p, best_q)] it returns has [best_p] among these points,
    [best_q = q(best_p)], and no point of the 2049, the point [0] included,
    has a larger value. *)
Theorem coarse_scan_maximum :
  exists best_p best_q tr,
    coarse_scan (A := binary64) _q_of_p [] = Ok ((best_p, best_q), tr)
    /\ rev tr = map (scan_point (A := binary64)) (range 0 2049)
    /\ (forall i, (0 <= i < 2049)%Z ->
          scan_point (A := binary64) i = (B64.of_int i / 2048)%float)
    /\ (exists i, (0 <= i < 2049)%Z /\ best_p = scan_point (A := binary64) i)
    /\ _q_of_p best_p = Ok best_q
    /\ (forall i, (0 <= i < 2049)%Z ->
          exists q, _q_of_p (scan_point (A := binary64) i) = Ok q
                    /\ PrimFloat.leb q best_q = true).
Proof.
  eexists. eexists. eexists.
  split; [ vm_compute; reflexivity | ].
  split; [ vm_compute; reflexivity | ].
  split.
  { apply (range_forallb _
             (fun i => Leibniz.eqb (scan_point (A := binary64) i)
                         (B64.of_int i / 2048)%float)).
    - intros i Hi. now apply FloatAxioms.Leibniz.eqb_spec.
    - vm_compute; reflexivity. }
  split.
  { exists 465%Z. split; [ lia | vm_compute; reflexivity ]. }
  split; [ vm_compute; reflexivity | ].
  lazymatch goal with
  | |- forall i, _ -> exists q, _ /\ PrimFloat.leb q ?bound = true =>
      apply (range_forallb _
               (fun i => value_at_most (A := binary64) _q_of_p bound
                           (scan_point (A := binary64) i)))
  end.
  - intros i Hi. now apply value_at_most_true in Hi.
  - vm_compute; reflexivity.
Qed.

(** C5. On binary64 [solve_fast()] returns a pair [(ps, qs)] with
    [qs = q(ps)], [0 < ps < 1], [q(0) <= qs], [q(1) <= qs], and
    [q(p_i) <= qs] at each of the 2049 points [p_i] of the coarse scan. *)
Theorem solve_fast_dominates_scan :
  exists p_star q_star tr,
    solve_fast (A := binary64) [] = Ok ((p_star, q_star), tr)
    /\ _q_of_p p_star = Ok q_star
    /\ PrimFloat.ltb 0 p_star = true /\ PrimFloat.ltb p_star 1 = true
    /\ (exists q0, _q_of_p (A := binary64) 0%float = Ok q0
                   /\ PrimFloat.leb q0 q_star = true)
    /\ (exists q1, _q_of_p (A := binary64) 1%float = Ok q1
                   /\ PrimFloat.leb q1 q_star = true)
    /\ (forall i, (0 <= i < 2049)%Z ->
          exists q, _q_of_p (scan_point (A := binary64) i) = Ok q
                    /\ PrimFloat.leb q q_star = true).
Proof.
  eexists. eexists. eexists.
  split; [ vm_compute; reflexivity | ].
  split; [ vm_compute; reflexivity | ].
  split; [ vm_compute; reflexivity | ].
  split; [ vm_compute; reflexivity | ].
  split; [ eexists; split; vm_compute; reflexivity | ].
  split; [ eexists; split; vm_compute; reflexivity | ].
  lazymatch goal with
  | |- forall i, _ -> exists q, _ /\ PrimFloat.leb q ?bound = true =>
      apply (range_forallb _
               (fun i => value_at_most (A := binary64) _q_of_p bound
                           (scan_point (A := binary64) i)))
  end.
  - intros i Hi. now apply value_at_most_true in Hi.
  - vm_compute; reflexivity.
Qed.

(** ** Probabilities *)

Section UnitChecks.

Context {A : Arith}.

Local Open Scope num_scope.

Lemma cells_in_unit_true (g : grid) (nb ns : nat) :
  cells_in_unit g nb ns = true ->
  forall b s, (b < nb)%nat -> (s < ns)%nat ->
    exists x, getitem g b s = Ok x
              /\ (dec 0 0 <=? x) = true /\ (x <=? dec 1 0) = true.
Proof.
  unfold cells_in_unit. rewrite forallb_forall. intros H b s Hb Hs.
  specialize (H b). rewrite forallb_forall in H.
  assert (Hin : In b (seq 0 nb)) by (apply in_seq; lia).
  specialize (H Hin s).
  assert (Hin' : In s (seq 0 ns)) by (apply in_seq; lia).
  specialize (H Hin').
  destruct (getitem g b s) as [x | e]; [ | discriminate ].
  exists x. unfold in_unit in H. apply andb_true_iff in H. auto.
Qed.

End UnitChecks.

(** X15. The mixing probabilities of the value pass are probabilities: in
    exact arithmetic for every [p] in [0,1] and every state [(b,s)] with [b]
    in 0..3 and [s] in 0..2 (a degenerate state holds [0]), and on binary64
    at each of the 2115 arguments with which [solve_fast()] calls the
    evaluator, the 2049 points of the coarse scan among them. *)
Theorem mixing_is_probability :
  (forall p : R, (0 <= p <= 1)%R ->
     exists V r,
       value_pass (A := exact) p = Ok (V, r)
       /\ forall b s, (b < 4)%nat -> (s < 3)%nat ->
            exists x, getitem r b s = Ok x /\ (0 <= x <= 1)%R)
  /\ (exists res tr,
        solve_fast (A := binary64) [] = Ok (res, tr)
        /\ length tr = 2115%nat
        /\ forall p, In p tr ->
             exists V r,
               value_pass (A := binary64) p = Ok (V, r)
               /\ forall b s, (b < 4)%nat -> (s < 3)%nat ->
                    exists x, getitem r b s = Ok x
                              /\ PrimFloat.leb 0 x = true
                              /\ PrimFloat.leb x 1 = true).
Proof.
  split.
  - intros p Hp. pose proof (exact_run p Hp) as H.
    destruct (value_pass (A := exact) p) as [[V r] | e]; [ | contradiction ].
    destruct (reach_pass (A := exact) p r) as [F | e]; [ | contradiction ].
    exists V, r. split; [ reflexivity | apply H ].
  - eexists. eexists.
    split; [ vm_compute; reflexivity | ].
    split; [ reflexivity | ].
    lazymatch goal with
    | |- forall p, In p ?tr -> _ =>
        assert (Hall : forallb (mixes_in_unit (A := binary64)) tr = true)
          by (vm_compute; reflexivity)
    end.
    rewrite forallb_forall in Hall.
    intros p Hp. specialize (Hall p Hp). unfold mixes_in_unit in Hall.
    destruct (value_pass (A := binary64) p) as [[V r] | e];
      [ | discriminate ].
    exists V, r. split; [ reflexivity | ].
    exact (cells_in_unit_true r 4 3 Hall).
Qed.

Lemma mixing_is_probability_witness :
  exists V r,
    value_pass (A := exact) (1 / 2)%R = Ok (V, r)
    /\ forall b s, (b < 4)%nat -> (s < 3)%nat ->
         exists x, getitem r b s = Ok x /\ (0 <= x <= 1)%R.
Proof.
  apply (proj1 mixing_is_probability). lra.
Defined.

(** X16. After the second sweep [F[3][2] = 1.0], [F[4][s] = 0] for [s] in
    0..3 and [F[b][3] = 0] for [b] in 0..4, for every [p] and in every
    arithmetic; every entry of [F] is a probability, in exact arithmetic for
    every [p] in [0,1] and on binary64 at each of the 2115 arguments with
    which [solve_fast()] calls the evaluator, the 2049 points of the coarse
    scan among them. *)
Theorem reach_is_probability :
  (forall (A : Arith) (p : num),
     exists V r F,
       value_pass p = Ok (V, r) /\ reach_pass p r = Ok F
       /\ getitem F 3 2 = Ok (dec 1 0)
       /\ (forall s, (s < 4)%nat -> getitem F 4 s = Ok (dec 0 0))
       /\ (forall b, (b < 5)%nat -> getitem F b 3 = Ok (dec 0 0)))
  /\ (forall p : R, (0 <= p <= 1)%R ->
        exists V r F,
          value_pass (A := exact) p = Ok (V, r) /\ reach_pass p r = Ok F
          /\ forall b s, (b < 5)%nat -> (s < 4)%nat ->
               exists x, getitem F b s = Ok x /\ (0 <= x <= 1)%R)
  /\ (exists res tr,
        solve_fast (A := binary64) [] = Ok (res, tr)
        /\ length tr = 2115%nat
        /\ forall p, In p tr ->
             exists V r F,
               value_pass (A := binary64) p = Ok (V, r)
               /\ reach_pass p r = Ok F
               /\ forall b s, (b < 5)%nat -> (s < 4)%nat ->
                    exists x, getitem F b s = Ok x
                              /\ PrimFloat.leb 0 x = true
                              /\ PrimFloat.leb x 1 = true).
Proof.
  split; [ | split ].
  - intros A p.
    destruct (q_of_p_run p) as (V & r & F & EV & _ & EF & HF & _).
    exists V, r, F. split; [ exact EV | ]. split; [ exact EF | ].
    destruct HF as (_ & H32 & H4 & H3 & _). auto.
  - intros p Hp. pose proof (exact_run p Hp) as H.
    destruct (value_pass (A := exact) p) as [[V r] | e]; [ | contradiction ].
    destruct (reach_pass (A := exact) p r) as [F | e] eqn:EF;
      [ | contradiction ].
    exists V, r, F. split; [ reflexivity | ]. split; [ exact EF | apply H ].
  - eexists. eexists.
    split; [ vm_compute; reflexivity | ].
    split; [ reflexivity | ].
    lazymatch goal with
    | |- forall p, In p ?tr -> _ =>
        assert (Hall : forallb (reach_in_unit (A := binary64)) tr = true)
          by (vm_compute; reflexivity)
    end.
    rewrite forallb_forall in Hall.
    intros p Hp. specialize (Hall p Hp). unfold reach_in_unit in Hall.
    destruct (value_pass (A := binary64) p) as [[V r] | e];
      [ | discriminate ].
    destruct (reach_pass (A := binary64) p r) as [F | e] eqn:EF;
      [ | discriminate ].
    exists V, r, F. split; [ reflexivity | ]. split; [ exact EF | ].
    exact (cells_in_unit_true F 5 4 Hall).
Qed.

Lemma reach_is_probability_witness :
  exists V r F,
    value_pass (A := exact) (1 / 2)%R = Ok (V, r)
    /\ reach_pass (1 / 2)%R r = Ok F
    /\ forall b s, (b < 5)%nat -> (s < 4)%nat ->
         exists x, getitem F b s = Ok x /\ (0 <= x <= 1)%R.
Proof.
  apply (proj1 (proj2 reach_is_probability)). lra.
Defined.

(** ** The golden-section loop *)

Section Golden.

Context {A : Arith}.

Local Open Scope num_scope.

Lemma golden_step_ok (f : num -> result num) (gr : num) (st : bracket)
    (tr : list num) :
  total f ->
  exists st' x v,
    golden_step f gr st tr = Ok (st', x :: tr) /\ f x = Ok v
    /\ it st' = (it st + 1)%nat
    /\ (((fc st <? fd st) = true
         /\ x = xc st + gr * (hi st - xc st)
         /\ st' = Bracket (xc st) (hi st) (xd st) x (fd st) v (it st + 1))
        \/ ((fc st <? fd st) = false
            /\ x = xd st - gr * (xd st - lo st)
            /\ st' = Bracket (lo st) (xd st) x (xc st) v (fc st) (it st + 1))).
Proof.
  intros Hf. unfold golden_step.
  destruct (fc st <? fd st) eqn:C; cbv zeta.
  - destruct (Hf (xc st + gr * (hi st - xc st))) as [v Hv].
    eexists. exists (xc st + gr * (hi st - xc st)), v.
    unfold bindM, call, ret. rewrite Hv. cbn [bind].
    split; [ reflexivity | ]. split; [ reflexivity | ].
    split; [ reflexivity | ]. left. auto.
  - destruct (Hf (xd st - gr * (xd st - lo st))) as [v Hv].
    eexists. exists (xd st - gr * (xd st - lo st)), v.
    unfold bindM, call, ret. rewrite Hv. cbn [bind].
    split; [ reflexivity | ]. split; [ reflexivity | ].
    split; [ reflexivity | ]. right. auto.
Qed.

Lemma golden_step_narrows (f : num -> result num) (gr : num)
    (st st' : bracket) (tr tr' : list num) :
  golden_step f gr st tr = Ok (st', tr') ->
  narrows st st' /\ it st' = (it st + 1)%nat.
Proof.
  unfold golden_step, narrows.
  destruct (fc st <? fd st); cbv zeta; unfold bindM, call, ret;
    destruct (f _) as [v | e]; cbn [bind]; try discriminate;
    intros H; injection H as <- _; cbn; auto.
Qed.

Lemma golden_continue_it (tol : num) (max_iter : nat) (st : bracket) :
  golden_continue tol max_iter st = true -> (it st < max_iter)%nat.
Proof.
  unfold golden_continue. intros H. apply andb_true_iff in H.
  destruct H as [_ H]. now apply Nat.ltb_lt in H.
Qed.

(** The loop, given at least [max_iter - it] iterations, runs the body until
    the condition first fails. *)
Lemma golden_loop_run (f : num -> result num) (gr tol : num) (max_iter : nat) :
  total f ->
  forall (fuel : nat) (st : bracket) (tr : list num),
    (max_iter - it st <= fuel)%nat ->
    exists k st' tr',
      golden_loop f gr tol max_iter fuel st tr = Ok (st', tr')
      /\ golden_iter f gr k st tr = Ok (st', tr')
      /\ it st' = (it st + k)%nat
      /\ golden_continue tol max_iter st' = false
      /\ forall j, (j < k)%nat ->
           exists stj trj,
             golden_iter f gr j st tr = Ok (stj, trj)
             /\ golden_continue tol max_iter stj = true.
Proof.
  intros Hf fuel. induction fuel as [ | fuel IH]; intros st tr Hfuel.
  - exists 0%nat, st, tr. cbn [golden_loop golden_iter].
    destruct (golden_continue tol max_iter st) eqn:C.
    + apply golden_continue_it in C. lia.
    + unfold ret. repeat split; auto. intros j Hj. lia.
  - cbn [golden_loop].
    destruct (golden_continue tol max_iter st) eqn:C.
    + destruct (golden_step_ok f gr st tr Hf)
        as (st1 & x & v & Hstep & _ & Hit & _).
      apply golden_continue_it in C as Clt.
      destruct (IH st1 (x :: tr))
        as (k & st' & tr' & HL & HI & Hk & Hstop & Hpre); [ lia | ].
      exists (S k), st', tr'.
      cbn [golden_iter]. unfold bindM. rewrite Hstep. cbn [bind].
      split; [ exact HL | ]. split; [ exact HI | ].
      split; [ lia | ]. split; [ exact Hstop | ].
      intros [ | j] Hj.
      * exists st, tr. cbn [golden_iter]. now unfold ret.
      * destruct (Hpre j) as (stj & trj & Hj1 & Hj2); [ lia | ].
        exists stj, trj. cbn [golden_iter]. unfold bindM. rewrite Hstep.
        cbn [bind]. auto.
    + exists 0%nat, st, tr. cbn [golden_iter]. unfold ret.
      repeat split; auto. intros j Hj. lia.
Qed.

Lemma golden_iter_it (f : num -> result num) (gr : num) (k : nat) :
  forall (st st' : bracket) (tr tr' : list num),
    golden_iter f gr k st tr = Ok (st', tr') -> it st' = (it st + k)%nat.
Proof.
  induction k as [ | k IH]; intros st st' tr tr' H; cbn [golden_iter] in H.
  - unfold ret in H. injection H as <- _. lia.
  - unfold bindM in H.
    destruct (golden_step f gr st tr) as [[st1 tr1] | e] eqn:E;
      cbn [bind] in H; [ | discriminate ].
    apply golden_step_narrows in E. apply IH in H. lia.
Qed.

Lemma golden_ratio_ok : exists gr, golden_ratio = Ok gr.
Proof.
  unfold golden_ratio, fdiv. rewrite two_not_zero. eauto.
Qed.

(** [_golden_max] from its first bracket to the pair it returns. *)
Lemma golden_max_run (f : num -> result num) (a b tol : num) (max_iter : nat)
    (tr : list num) :
  total f ->
  exists gr st0 tr0 k st tr1 fx,
    golden_ratio = Ok gr
    /\ golden_start f gr a b tr = Ok (st0, tr0)
    /\ lo st0 = a /\ hi st0 = b
    /\ golden_iter f gr k st0 tr0 = Ok (st, tr1)
    /\ (k <= max_iter)%nat /\ it st = k
    /\ ((tol <? hi st - lo st) = false \/ it st = max_iter)
    /\ (forall j, (j < k)%nat ->
          exists stj trj,
            golden_iter f gr j st0 tr0 = Ok (stj, trj)
            /\ (tol <? hi stj - lo stj) = true /\ (it stj < max_iter)%nat)
    /\ f (dec 5 (-1) * (lo st + hi st)) = Ok fx
    /\ _golden_max f a b tol max_iter tr
       = Ok ((dec 5 (-1) * (lo st + hi st), fx),
             dec 5 (-1) * (lo st + hi st) :: tr1).
Proof.
  intros Hf.
  destruct golden_ratio_ok as [gr Hgr].
  destruct (Hf (b - gr * (b - a))) as [fc0 Hc].
  destruct (Hf (a + gr * (b - a))) as [fd0 Hd].
  set (st0 := Bracket a b (b - gr * (b - a)) (a + gr * (b - a)) fc0 fd0 0).
  set (tr0 := (a + gr * (b - a)) :: (b - gr * (b - a)) :: tr).
  assert (Hstart : golden_start f gr a b tr = Ok (st0, tr0)).
  { unfold golden_start, bindM, call, ret; cbv zeta.
    rewrite Hc; cbn [bind]. rewrite Hd; cbn [bind]. reflexivity. }
  destruct (golden_loop_run f gr tol max_iter Hf max_iter st0 tr0)
    as (k & st & tr1 & HL & HI & Hk & Hstop & Hpre); [ cbn; lia | ].
  destruct (Hf (dec 5 (-1) * (lo st + hi st))) as [fx Hx].
  cbn [it st0] in Hk.
  assert (Hcont : forall j, (j < k)%nat ->
            exists stj trj,
              golden_iter f gr j st0 tr0 = Ok (stj, trj)
              /\ (tol <? hi stj - lo stj) = true /\ (it stj < max_iter)%nat).
  { intros j Hj. destruct (Hpre j Hj) as (stj & trj & Hj1 & Hj2).
    exists stj, trj. split; [ exact Hj1 | ].
    unfold golden_continue in Hj2. apply andb_true_iff in Hj2.
    destruct Hj2 as [Hw Hi]. apply Nat.ltb_lt in Hi. auto. }
  assert (Hcap : (k <= max_iter)%nat).
  { destruct k as [ | k]; [ lia | ].
    destruct (Hcont k) as (stj & trj & Hj & _ & Hlt); [ lia | ].
    apply golden_iter_it in Hj. cbn [it st0] in Hj. lia. }
  exists gr, st0, tr0, k, st, tr1, fx.
  split; [ exact Hgr | ]. split; [ exact Hstart | ].
  split; [ reflexivity | ]. split; [ reflexivity | ].
  split; [ exact HI | ]. split; [ exact Hcap | ]. split; [ lia | ].
  split.
  { unfold golden_continue in Hstop. apply andb_false_iff in Hstop.
    destruct Hstop as [Hw | Hi]; [ now left | right ].
    apply Nat.ltb_ge in Hi. lia. }
  split; [ exact Hcont | ]. split; [ exact Hx | ].
  unfold _golden_max, bindM, lift, call, ret.
  rewrite Hgr; cbn [bind].
  unfold golden_start, bindM, call, ret in Hstart; cbv zeta in Hstart.
  unfold golden_start, bindM, call, ret; cbv zeta.
  rewrite Hstart; cbn [bind].
  rewrite HL; cbn [bind]. rewrite Hx; cbn [bind]. reflexivity.
Qed.

End Golden.

(** *** The bracket in exact arithmetic *)

Section GoldenExact.

Local Open Scope R_scope.

Lemma phi_inv_square : phi_inv * phi_inv + phi_inv = 1.
Proof.
  unfold phi_inv.
  assert (H : sqrt 5 * sqrt 5 = 5) by (apply sqrt_sqrt; lra).
  nra.
Qed.

Lemma golden_ratio_exact : golden_ratio (A := exact) = Ok phi_inv.
Proof.
  unfold golden_ratio, fdiv. rewrite two_not_zero. f_equal.
  cbn [quo sub sqrtn of_int dec exact]. unfold Exact.dec, phi_inv.
  cbn [powerRZ]. rewrite !Rmult_1_r. reflexivity.
Qed.

Lemma exact_step (f : R -> result R) (gr : R) (st st' : bracket (A := exact))
    (tr tr' : list R) :
  gr * gr + gr = 1 ->
  placed gr st ->
  golden_step (A := exact) f gr st tr = Ok (st', tr') ->
  placed gr st' /\ hi st' - lo st' = gr * (hi st - lo st).
Proof.
  intros Hg [Hc Hd]. unfold golden_step, placed.
  assert (H1 : gr * gr * hi st + gr * hi st = hi st)
    by (rewrite <- Rmult_plus_distr_r, Hg; ring).
  assert (H2 : gr * gr * lo st + gr * lo st = lo st)
    by (rewrite <- Rmult_plus_distr_r, Hg; ring).
  destruct (ltb (fc st) (fd st)); cbv zeta; unfold bindM, call, ret;
    destruct (f _) as [v | e]; cbn [bind]; try discriminate;
    intros H; injection H as <- _;
    cbn [lo hi xc xd add sub mul exact]; rewrite Hc, Hd;
    repeat split; lra.
Qed.

Lemma exact_iter (f : R -> result R) (gr : R) (k : nat) :
  gr * gr + gr = 1 ->
  forall (st st' : bracket (A := exact)) (tr tr' : list R),
    placed gr st ->
    golden_iter (A := exact) f gr k st tr = Ok (st', tr') ->
    placed gr st' /\ hi st' - lo st' = (hi st - lo st) * gr ^ k.
Proof.
  intros Hg. induction k as [ | k IH]; intros st st' tr tr' Hp H;
    cbn [golden_iter] in H.
  - unfold ret in H. injection H as <- _. split; [ exact Hp | ].
    cbn [pow]. lra.
  - unfold bindM in H.
    destruct (golden_step (A := exact) f gr st tr) as [[st1 tr1] | e] eqn:E;
      cbn [bind] in H; [ | discriminate ].
    destruct (exact_step f gr st st1 tr tr1 Hg Hp E) as [Hp1 Hw1].
    destruct (IH st1 st' tr1 tr' Hp1 H) as [Hp' Hw'].
    split; [ exact Hp' | ]. rewrite Hw', Hw1. cbn [pow]. ring.
Qed.

Lemma exact_start (f : R -> result R) (gr a b : R)
    (st0 : bracket (A := exact)) (tr tr0 : list R) :
  golden_start (A := exact) f gr a b tr = Ok (st0, tr0) ->
  placed gr st0 /\ lo st0 = a /\ hi st0 = b.
Proof.
  unfold golden_start, bindM, call, ret; cbv zeta.
  destruct (f _) as [v | e]; cbn [bind]; [ | discriminate ].
  destruct (f _) as [w | e]; cbn [bind]; [ | discriminate ].
  intros H. injection H as <- _. unfold placed. cbn. auto.
Qed.

End GoldenExact.

Lemma float_neq (x y : float) : Leibniz.eqb x y = false -> x <> y.
Proof.
  intros H E. apply FloatAxioms.Leibniz.eqb_spec in E. congruence.
Qed.




(** The same in the refinement that [solve_fast] runs, around the best point
    [465 / 2048] of the scan. *)
Lemma golden_width_in_solve_fast :
  exists gr st0 tr0 st1 tr1 st2 tr2,
    golden_ratio (A := binary64) = Ok gr
    /\ golden_start _q_of_p gr
         (pymax (dec 0 0) (scan_point 465 - dec 5 (-2))%num)
         (pymin (dec 1 0) (scan_point 465 + dec 5 (-2))%num) []
       = Ok (st0, tr0)
    /\ golden_iter _q_of_p gr 1 st0 tr0 = Ok (st1, tr1)
    /\ golden_iter _q_of_p gr 2 st0 tr0 = Ok (st2, tr2)
    /\ (hi st2 - lo st2)%float = 0.038196601125010499%float
    /\ (gr * (hi st1 - lo st1))%float = 0.038196601125010513%float
    /\ (hi st2 - lo st2)%float <> (gr * (hi st1 - lo st1))%float.
Proof.
  do 7 eexists.
  do 6 (split; [ vm_compute; reflexivity | ]).
  apply float_neq. vm_compute. reflexivity.
Qed.

(** ** The heap run against the functional one *)

Section ListFacts.

Context {X : Type}.

Lemma nth_error_app_at (pre l : list X) (k : nat) :
  nth_error (pre ++ l) (length pre + k) = nth_error l k.
Proof.
  induction pre as [ | y pre IH]; [ reflexivity | exact IH ].
Qed.

Lemma update_app_at (pre l : list X) (k : nat) (x : X) :
  update (pre ++ l) (length pre + k) x = pre ++ update l k x.
Proof.
  induction pre as [ | y pre IH]; [ reflexivity | ].
  cbn. now rewrite IH.
Qed.

Lemma update_app_below (l post : list X) (k : nat) (x : X) :
  (k < length l)%nat -> update (l ++ post) k x = update l k x ++ post.
Proof.
  revert k. induction l as [ | y l IH]; intros k Hk; [ cbn in Hk; lia | ].
  destruct k as [ | k]; [ reflexivity | ].
  cbn. rewrite IH; [ reflexivity | cbn in Hk; lia ].
Qed.

Lemma update_length (l : list X) (k : nat) (x : X) :
  length (update l k x) = length l.
Proof.
  revert k. induction l as [ | y l IH]; intros [ | k]; cbn; auto.
Qed.

Lemma update_map {Y : Type} (f : X -> Y) (l : list X) (k : nat) (x : X) :
  map f (update l k x) = update (map f l) k (f x).
Proof.
  revert k. induction l as [ | y l IH]; intros [ | k]; cbn; auto.
  now rewrite IH.
Qed.

End ListFacts.

Section Simulation.

Context {A : Arith}.

Local Open Scope num_scope.

Lemma enc_length (base : nat) (G : grid) :
  length (enc base G) = (length G + 1)%nat.
Proof.
  unfold enc. rewrite length_app, length_map. reflexivity.
Qed.

Lemma enc_outer (base : nat) (G : grid) :
  nth_error (enc base G) (length G)
  = Some (map Imp.VRef (seq base (length G))).
Proof.
  unfold enc.
  rewrite nth_error_app2 by (rewrite length_map; lia).
  now rewrite length_map, Nat.sub_diag.
Qed.

Lemma enc_row (base : nat) (G : grid) (b : nat) (row : list num) :
  nth_error G b = Some row ->
  nth_error (enc base G) b = Some (map Imp.VNum row)
  /\ nth_error (map Imp.VRef (seq base (length G))) b
     = Some (Imp.VRef (base + b))
  /\ (b < length G)%nat.
Proof.
  intros Hb.
  assert (Hlt : (b < length G)%nat) by (apply nth_error_Some; congruence).
  unfold enc. split; [ | split; [ | exact Hlt ] ].
  - rewrite nth_error_app1 by (now rewrite length_map).
    now rewrite nth_error_map, Hb.
  - rewrite nth_error_map.
    rewrite (nth_error_nth' _ 0%nat) by (now rewrite length_seq).
    now rewrite seq_nth.
Qed.

Lemma around_at (pre post : Imp.heap) (G : grid) (k : nat) :
  (k < length G + 1)%nat ->
  nth_error (around pre G post) (length pre + k)
  = nth_error (enc (length pre) G) k.
Proof.
  intros Hk. unfold around. rewrite nth_error_app_at.
  apply nth_error_app1. now rewrite enc_length.
Qed.

Lemma getitem_sim (pre post : Imp.heap) (G : grid) (b s : nat) (x : num) :
  getitem G b s = Ok x ->
  Imp.getitem (length pre + length G) b s (around pre G post)
  = Ok (x, around pre G post).
Proof.
  unfold getitem. intros H.
  destruct (nth_error G b) as [row | ] eqn:Eb; [ | discriminate ].
  destruct (nth_error row s) as [y | ] eqn:Es; [ | discriminate ].
  injection H as ->.
  destruct (enc_row (length pre) G b row Eb) as (Hrow & Href & Hlt).
  unfold Imp.getitem, bindM, Imp.load, ret.
  rewrite around_at, enc_outer by lia. rewrite Href. cbn [bind].
  rewrite around_at, Hrow by lia.
  rewrite nth_error_map, Es. reflexivity.
Qed.

Lemma setitem_sim (pre post : Imp.heap) (G G' : grid) (b s : nat) (x : num) :
  setitem G b s x = Ok G' ->
  Imp.setitem (length pre + length G) b s x (around pre G post)
  = Ok (tt, around pre G' post)
  /\ length G' = length G.
Proof.
  unfold setitem. intros H.
  destruct (nth_error G b) as [row | ] eqn:Eb; [ | discriminate ].
  destruct (Nat.ltb s (length row)) eqn:Es; [ | discriminate ].
  injection H as <-.
  destruct (enc_row (length pre) G b row Eb) as (Hrow & Href & Hlt).
  split; [ | apply update_length ].
  unfold Imp.setitem, bindM, Imp.load, Imp.store.
  rewrite around_at, enc_outer by lia. rewrite Href. cbn [bind].
  rewrite around_at, Hrow by lia.
  rewrite length_map, Es.
  unfold around at 1. rewrite update_app_at.
  rewrite update_app_below by (rewrite enc_length; lia).
  unfold around, enc. rewrite update_length.
  rewrite update_app_below by (now rewrite length_map).
  now rewrite !update_map.
Qed.

Lemma getitem_view (h pre post : Imp.heap) (g : nat) (G : grid) (b s : nat)
    (x : num) :
  h = around pre G post -> g = (length pre + length G)%nat ->
  getitem G b s = Ok x ->
  Imp.getitem g b s h = Ok (x, h).
Proof.
  intros -> ->. apply getitem_sim.
Qed.

Lemma setitem_view (h pre post : Imp.heap) (g : nat) (G G' : grid) (b s : nat)
    (x : num) :
  h = around pre G post -> g = (length pre + length G)%nat ->
  setitem G b s x = Ok G' ->
  Imp.setitem g b s x h = Ok (tt, around pre G' post) /\ length G' = length G.
Proof.
  intros -> ->. apply setitem_sim.
Qed.

Lemma new_grid_run (h : Imp.heap) :
  Imp.new_grid h = Ok ((length h + 5)%nat, h ++ enc (length h) zeros).
Proof.
  unfold Imp.new_grid, Imp.new_row, Imp.alloc, bindM, ret.
  cbn [for_eachM seq bind app].
  unfold bindM, ret. cbn [bind app].
  rewrite !length_app. cbn [length].
  unfold enc, zeros. cbn [repeat map length seq app].
  rewrite <- !app_assoc. cbn [app].
  rewrite !Nat.add_1_r.
  replace (length h + 5)%nat with (S (S (S (S (S (length h)))))) by lia.
  reflexivity.
Qed.

(** A loop on the heap follows the loop on the grids it holds. *)
Lemma for_each_sim {X S : Type} (Inv : S -> Prop) (repr : S -> Imp.heap)
    (bodyH : X -> unit -> Imp.H unit) (body : X -> S -> result S)
    (xs : list X) :
  (forall x st st', Inv st -> body x st = Ok st' ->
     bodyH x tt (repr st) = Ok (tt, repr st') /\ Inv st') ->
  forall st st', Inv st -> for_each xs body st = Ok st' ->
    for_eachM xs bodyH tt (repr st) = Ok (tt, repr st') /\ Inv st'.
Proof.
  intros Hbody. induction xs as [ | x xs IH]; intros st st' Hinv H.
  - cbn in H. injection H as <-. cbn. unfold ret. auto.
  - cbn [for_each] in H.
    destruct (body x st) as [st1 | e] eqn:E; cbn [bind] in H;
      [ | discriminate ].
    destruct (Hbody x st st1 Hinv E) as [Hh Hinv1].
    destruct (IH st1 st' Hinv1 H) as [Hrest Hinv'].
    split; [ | exact Hinv' ].
    cbn [for_eachM]. unfold bindM. rewrite Hh. cbn [bind]. exact Hrest.
Qed.

Section Layout.

Variable h0 : Imp.heap.

Let n : nat := length h0.

Lemma heap2_V (V r : grid) : heap2 h0 (V, r) = around h0 V (enc (n + 6) r).
Proof. reflexivity. Qed.

Lemma heap2_r (V r : grid) :
  length V = 5%nat -> heap2 h0 (V, r) = around (h0 ++ enc n V) r [].
Proof.
  intros HV. unfold heap2, around. cbn [fst snd].
  rewrite length_app, enc_length, HV, app_nil_r, <- app_assoc.
  fold n. repeat f_equal; lia.
Qed.

Lemma heap3_r (V r F : grid) :
  length V = 5%nat ->
  heap3 h0 V r F = around (h0 ++ enc n V) r (enc (n + 12) F).
Proof.
  intros HV. unfold heap3, around.
  rewrite length_app, enc_length, HV, <- app_assoc.
  fold n. repeat f_equal; lia.
Qed.

Lemma heap3_F (V r F : grid) :
  length V = 5%nat -> length r = 5%nat ->
  heap3 h0 V r F = around (h0 ++ enc n V ++ enc (n + 6) r) F [].
Proof.
  intros HV Hr. unfold heap3, around.
  rewrite !length_app, !enc_length, HV, Hr, app_nil_r, <- !app_assoc.
  fold n. repeat f_equal; lia.
Qed.

Lemma value_body_sim (p : num) (b s : nat) (st st' : grid * grid) :
  five2 st -> value_body p b s st = Ok st' ->
  Imp.value_body p (n + 5) (n + 11) b s (heap2 h0 st) = Ok (tt, heap2 h0 st')
  /\ five2 st'.
Proof.
  destruct st as [V r]. intros [HV Hr]. cbn [fst snd] in HV, Hr.
  unfold value_body.
  destruct (getitem V (b + 1) s) as [A0 | e] eqn:EA; cbn [bind];
    [ | discriminate ].
  destruct (getitem V b (s + 1)) as [B0 | e] eqn:EB; cbn [bind];
    [ | discriminate ].
  destruct (_equilibrium_r A0 B0 p) as [rr | e] eqn:Er; cbn [bind];
    [ | discriminate ].
  destruct (setitem r b s rr) as [r' | e] eqn:Esr; cbn [bind];
    [ | discriminate ].
  destruct (setitem V b s _) as [V' | e] eqn:EsV; cbn [bind];
    [ | discriminate ].
  intros H. injection H as <-.
  assert (HgV : (n + 5 = length h0 + length V)%nat) by (fold n; lia).
  unfold Imp.value_body, bindM, lift.
  rewrite (getitem_view _ _ _ _ _ _ _ _ (heap2_V V r) HgV EA). cbn [bind].
  rewrite (getitem_view _ _ _ _ _ _ _ _ (heap2_V V r) HgV EB). cbn [bind].
  rewrite Er. cbn [bind].
  destruct (setitem_view (heap2 h0 (V, r)) (h0 ++ enc n V) [] (n + 11)
              r r' b s rr)
    as [Hsr Hr']; [ now apply heap2_r | | exact Esr | ].
  { rewrite length_app, enc_length. fold n. lia. }
  rewrite Hsr. cbn [bind].
  rewrite <- (heap2_r V r' HV).
  destruct (setitem_view (heap2 h0 (V, r')) h0 (enc (n + 6) r') (n + 5) V V' b s
              (B0 + (A0 - B0) * rr))
    as [HsV HV']; [ apply heap2_V | fold n; lia | exact EsV | ].
  rewrite HsV. split; [ reflexivity | ].
  split; cbn [fst snd]; congruence.
Qed.

Lemma reach_body_sim (p : num) (V r : grid) (b s : nat) (F F' : grid) :
  length V = 5%nat -> length r = 5%nat -> length F = 5%nat ->
  reach_body p r b s F = Ok F' ->
  Imp.reach_body p (n + 11) (n + 17) b s (heap3 h0 V r F)
  = Ok (tt, heap3 h0 V r F')
  /\ length F' = 5%nat.
Proof.
  intros HV Hr HF. unfold reach_body, Imp.reach_body.
  destruct (Nat.eqb b 3 && Nat.eqb s 2).
  { intros H. injection H as <-. unfold ret. auto. }
  destruct (getitem r b s) as [rr | e] eqn:Er; cbn [bind]; [ | discriminate ].
  destruct (getitem F (b + 1) s) as [F1 | e] eqn:E1; cbn [bind];
    [ | discriminate ].
  destruct (getitem F b (s + 1)) as [F2 | e] eqn:E2; cbn [bind];
    [ | discriminate ].
  intros EsF.
  assert (Hgr : (n + 11 = length (h0 ++ enc n V) + length r)%nat)
    by (rewrite length_app, enc_length; fold n; lia).
  assert (HgF : (n + 17
                 = length (h0 ++ enc n V ++ enc (n + 6) r) + length F)%nat)
    by (rewrite !length_app, !enc_length; fold n; lia).
  unfold bindM.
  rewrite (getitem_view _ _ _ _ _ _ _ _ (heap3_r V r F HV) Hgr Er).
  cbn [bind].
  rewrite (getitem_view _ _ _ _ _ _ _ _ (heap3_F V r F HV Hr) HgF E1).
  cbn [bind].
  rewrite (getitem_view _ _ _ _ _ _ _ _ (heap3_F V r F HV Hr) HgF E2).
  cbn [bind].
  destruct (setitem_view _ _ _ _ _ _ _ _ _ (heap3_F V r F HV Hr) HgF EsF)
    as [Hs HF'].
  rewrite Hs. rewrite <- (heap3_F V r F' HV Hr).
  split; [ reflexivity | congruence ].
Qed.

Lemma terminal_sim (b s : nat) (x : num) (V V' : grid) :
  length V = 5%nat -> setitem V b s x = Ok V' ->
  Imp.setitem (n + 5) b s x (heap2 h0 (V, zeros))
  = Ok (tt, heap2 h0 (V', zeros))
  /\ length V' = 5%nat.
Proof.
  intros HV Hs.
  destruct (setitem_view (heap2 h0 (V, zeros)) h0 (enc (n + 6) zeros) (n + 5)
              V V' b s x)
    as [H HV']; [ apply heap2_V | fold n; lia | exact Hs | ].
  split; [ exact H | congruence ].
Qed.

(** The heap run of [_q_of_p] returns what the functional one returns, and
    leaves the objects it found as they were, followed by the three grids. *)
Lemma heap_run (p : num) (V r F : grid) (q : num) :
  value_pass p = Ok (V, r) -> reach_pass p r = Ok F ->
  getitem F 0 0 = Ok q ->
  Imp._q_of_p p h0 = Ok (q, heap3 h0 V r F).
Proof.
  intros EV EF Eq.
  unfold value_pass in EV; cbv zeta in EV.
  destruct (for_each (seq 0 4) _ zeros) as [V1 | e] eqn:E1; cbn [bind] in EV;
    [ | discriminate ].
  destruct (for_each (seq 0 5) _ V1) as [V2 | e] eqn:E2; cbn [bind] in EV;
    [ | discriminate ].
  unfold reach_pass in EF; cbv zeta in EF.
  destruct (setitem zeros 3 2 (dec 1 0)) as [F0 | e] eqn:E3; cbn [bind] in EF;
    [ | discriminate ].
  assert (Hz : length zeros = 5%nat) by reflexivity.
  (* the two grids are allocated *)
  unfold Imp._q_of_p, bindM.
  rewrite new_grid_run. cbn [bind].
  rewrite new_grid_run. cbn [bind].
  replace ((h0 ++ enc (length h0) zeros)
           ++ enc (length (h0 ++ enc (length h0) zeros)) zeros)
    with (heap2 h0 (zeros, zeros)).
  2:{ unfold heap2. cbn [fst snd]. rewrite length_app, enc_length, Hz.
      rewrite <- app_assoc. fold n. repeat f_equal; lia. }
  replace (length (h0 ++ enc (length h0) zeros) + 5)%nat with (n + 11)%nat
    by (rewrite length_app, enc_length, Hz; fold n; lia).
  fold n.
  (* the terminal values *)
  destruct (for_each_sim (fun V : grid => length V = 5%nat)
              (fun V : grid => heap2 h0 (V, zeros))
              (fun s _ => Imp.setitem (n + 5) 4 s (dec 1 0))
              (fun s V => setitem V 4 s (dec 1 0)) (seq 0 4)
              (fun s V V' => terminal_sim 4 s (dec 1 0) V V') zeros V1 Hz E1)
    as [H1 HV1].
  rewrite H1. cbn [bind].
  destruct (for_each_sim (fun V : grid => length V = 5%nat)
              (fun V : grid => heap2 h0 (V, zeros))
              (fun b _ => Imp.setitem (n + 5) b 3 (dec 0 0))
              (fun b V => setitem V b 3 (dec 0 0)) (seq 0 5)
              (fun b V V' => terminal_sim b 3 (dec 0 0) V V') V1 V2 HV1 E2)
    as [H2 HV2].
  rewrite H2. cbn [bind].
  (* the backward induction for V and r *)
  destruct (for_each_sim five2 (heap2 h0)
              (fun s _ =>
                 for_eachM [3; 2; 1; 0]%nat
                   (fun b _ => Imp.value_body p (n + 5) (n + 11) b s) tt)
              (fun s st => for_each [3; 2; 1; 0]%nat
                             (fun b st => value_body p b s st) st)
              [2; 1; 0]%nat
              (fun s => for_each_sim five2 (heap2 h0) _ _ [3; 2; 1; 0]%nat
                          (fun b => value_body_sim p b s))
              (V2, zeros) (V, r) (conj HV2 Hz) EV)
    as [H3 [HV Hr]].
  cbn [fst snd] in HV, Hr.
  rewrite H3. cbn [bind].
  (* the third grid *)
  rewrite new_grid_run. cbn [bind].
  replace (heap2 h0 (V, r) ++ enc (length (heap2 h0 (V, r))) zeros)
    with (heap3 h0 V r zeros).
  2:{ unfold heap3, heap2. cbn [fst snd].
      rewrite !length_app, !enc_length, HV, Hr, <- !app_assoc.
      fold n. repeat f_equal; lia. }
  replace (length (heap2 h0 (V, r)) + 5)%nat with (n + 17)%nat
    by (unfold heap2; cbn [fst snd];
        rewrite !length_app, !enc_length, HV, Hr; fold n; lia).
  assert (HgF : forall G : grid, length G = 5%nat ->
            (n + 17 = length (h0 ++ enc n V ++ enc (n + 6) r) + length G)%nat)
    by (intros G HG; rewrite !length_app, !enc_length; fold n; lia).
  destruct (setitem_view _ _ _ _ _ _ _ _ _
              (heap3_F V r zeros HV Hr) (HgF zeros Hz) E3) as [H4 HF0].
  rewrite H4. cbn [bind]. rewrite <- (heap3_F V r F0 HV Hr).
  destruct (for_each_sim (fun F : grid => length F = 5%nat) (heap3 h0 V r)
              (fun s _ =>
                 for_eachM [3; 2; 1; 0]%nat
                   (fun b _ => Imp.reach_body p (n + 11) (n + 17) b s) tt)
              (fun s F => for_each [3; 2; 1; 0]%nat
                            (fun b F => reach_body p r b s F) F)
              [2; 1; 0]%nat
              (fun s => for_each_sim (fun F : grid => length F = 5%nat)
                          (heap3 h0 V r)
                          _ _ [3; 2; 1; 0]%nat
                          (fun b F F' => reach_body_sim p V r b s F F' HV Hr))
              F0 F (eq_trans HF0 Hz) EF)
    as [H5 HF].
  rewrite H5. cbn [bind].
  exact (getitem_view _ _ _ _ _ _ _ _ (heap3_F V r F HV Hr) (HgF F HF) Eq).
Qed.

End Layout.

(** C9. Called on any heap, [_q_of_p(p)] returns the number that the
    functional evaluator returns, a function of [p] alone; the objects that
    were on the heap are left as they were, the three grids are new objects
    behind them; hence two calls with the same [p], the second on the heap
    the first has left or on any other, return the same number. *)
Theorem q_of_p_no_hidden_state (p : num) (h : Imp.heap) :
  exists q fresh,
    _q_of_p p = Ok q
    /\ Imp._q_of_p p h = Ok (q, h ++ fresh)
    /\ (exists fresh',
          Imp._q_of_p p (h ++ fresh) = Ok (q, (h ++ fresh) ++ fresh'))
    /\ (forall h', exists fresh', Imp._q_of_p p h' = Ok (q, h' ++ fresh')).
Proof.
  destruct (q_of_p_run p) as (V & r & F & EV & HV & EF & HF & Eq).
  assert (E00 : getitem F 0 0 = Ok (cell F 0 0))
    by (apply shape_getitem; [ apply HF | lia | lia ]).
  assert (Hany : forall h', exists fresh',
            Imp._q_of_p p h' = Ok (cell F 0 0, h' ++ fresh')).
  { intros h'. eexists. apply (heap_run h' p V r F _ EV EF E00). }
  exists (cell F 0 0). destruct (Hany h) as [fresh Hh].
  exists fresh. split; [ now rewrite Eq | ]. split; [ exact Hh | ].
  split; [ apply Hany | exact Hany ].
Qed.

End Simulation.

(** * Part V: further properties of the maximizer and of the evaluator *)

(** ** The calls of [_golden_max] *)

Section GoldenCalls.

Context {A : Arith}.

Local Open Scope num_scope.

Lemma golden_step_call (f : num -> result num) (gr : num) (st st' : bracket)
    (tr tr' : list num) :
  golden_step f gr st tr = Ok (st', tr') ->
  exists x, tr' = x :: tr
            /\ (cached f st -> cached f st')
            /\ (x = xd st' \/ x = xc st').
Proof.
  unfold golden_step, cached.
  destruct (fc st <? fd st); cbv zeta; unfold bindM, call, ret;
    destruct (f _) as [v | e] eqn:E; cbn [bind]; try discriminate;
    intros H; injection H as <- <-; eexists; (split; [ reflexivity | ]);
    cbn [xc xd fc fd]; (split; [ intros [Hc Hd]; auto | auto ]).
Qed.

Lemma golden_iter_calls (f : num -> result num) (gr : num) (k : nat) :
  forall (st st' : bracket) (tr tr' : list num),
    golden_iter f gr k st tr = Ok (st', tr') ->
    (exists calls, tr' = calls ++ tr /\ length calls = k)
    /\ (cached f st -> cached f st').
Proof.
  induction k as [ | k IH]; intros st st' tr tr' H; cbn [golden_iter] in H.
  - unfold ret in H. injection H as <- <-. split; [ now exists [] | auto ].
  - unfold bindM in H.
    destruct (golden_step f gr st tr) as [[st1 tr1] | e] eqn:E;
      cbn [bind] in H; [ | discriminate ].
    destruct (golden_step_call _ _ _ _ _ _ E) as (x & -> & Hc & _).
    destruct (IH _ _ _ _ H) as [(calls & -> & Hlen) Hc'].
    split; [ | auto ].
    exists (calls ++ [x]). rewrite <- app_assoc. split; [ reflexivity | ].
    rewrite length_app. cbn. lia.
Qed.

Lemma golden_start_calls (f : num -> result num) (gr a b : num)
    (st0 : bracket) (tr tr0 : list num) :
  golden_start f gr a b tr = Ok (st0, tr0) ->
  tr0 = (a + gr * (b - a)) :: (b - gr * (b - a)) :: tr
  /\ cached f st0
  /\ xc st0 = b - gr * (b - a) /\ xd st0 = a + gr * (b - a).
Proof.
  unfold golden_start, bindM, call, ret, cached; cbv zeta.
  destruct (f (b - gr * (b - a))) as [v | e] eqn:Ec; cbn [bind];
    [ | discriminate ].
  destruct (f (a + gr * (b - a))) as [w | e] eqn:Ed; cbn [bind];
    [ | discriminate ].
  intros H. injection H as <- <-. cbn. auto.
Qed.

(** X1. For a function [f] that returns, [_golden_max] calls [f] exactly
    [k + 3] times, [k] being the number of iterations of the [while] loop:
    the loop condition holds after each of the first [j < k] iterations and
    fails after the [k]-th, and [k <= max_iter].  The two calls at the
    interior points come first; [j] iterations of the body have added exactly
    [j] calls, one each; the last call is at the midpoint returned.  The
    calls made before are kept. *)
Theorem golden_max_calls (f : num -> result num) (a b tol : num)
    (max_iter : nat) (tr : list num) :
  total f ->
  exists gr st0 tr0 k st calls x fx,
    golden_ratio = Ok gr
    /\ golden_start f gr a b tr = Ok (st0, tr0)
    /\ tr0 = (a + gr * (b - a)) :: (b - gr * (b - a)) :: tr
    /\ golden_iter f gr k st0 tr0 = Ok (st, calls ++ tr0)
    /\ length calls = k /\ it st = k /\ (k <= max_iter)%nat
    /\ golden_continue tol max_iter st = false
    /\ (forall j, (j < k)%nat ->
          exists stj cj,
            golden_iter f gr j st0 tr0 = Ok (stj, cj ++ tr0)
            /\ length cj = j
            /\ golden_continue tol max_iter stj = true)
    /\ x = dec 5 (-1) * (lo st + hi st) /\ f x = Ok fx
    /\ _golden_max f a b tol max_iter tr = Ok ((x, fx), x :: calls ++ tr0)
    /\ length (x :: calls ++ tr0) = (length tr + (k + 3))%nat.
Proof.
  intros Hf.
  destruct (golden_max_run f a b tol max_iter tr Hf)
    as (gr & st0 & tr0 & k & st & tr1 & fx & Hgr & Hs & _ & _ & Hi & Hk & Hit
        & Hstop & Hpre & Hx & Hrun).
  destruct (golden_start_calls _ _ _ _ _ _ _ Hs) as (Htr0 & _).
  destruct (golden_iter_calls _ _ _ _ _ _ _ Hi) as [(calls & -> & Hlen) _].
  exists gr, st0, tr0, k, st, calls, (dec 5 (-1) * (lo st + hi st)), fx.
  split; [ exact Hgr | ]. split; [ exact Hs | ]. split; [ exact Htr0 | ].
  split; [ exact Hi | ]. split; [ exact Hlen | ]. split; [ exact Hit | ].
  split; [ exact Hk | ].
  split.
  { unfold golden_continue. destruct Hstop as [-> | ->]; [ reflexivity | ].
    rewrite Nat.ltb_irrefl. apply andb_false_r. }
  split.
  { intros j Hj. destruct (Hpre j Hj) as (stj & trj & Hj1 & Hw & Hlt).
    destruct (golden_iter_calls _ _ _ _ _ _ _ Hj1) as [(cj & -> & Hcj) _].
    exists stj, cj. split; [ exact Hj1 | ]. split; [ exact Hcj | ].
    unfold golden_continue. rewrite Hw.
    apply Nat.ltb_lt in Hlt. now rewrite Hlt. }
  split; [ reflexivity | ]. split; [ exact Hx | ].
  split; [ exact Hrun | ].
  cbn [length]. rewrite length_app, Hlen, Htr0. cbn [length]. lia.
Qed.

(** X2. Whatever the arithmetic, the values [fc] and [fd] that the loop
    compares are the values of [f] at the current interior points [c] and
    [d], after any number of iterations: the evaluation that an iteration
    reuses is the right one. *)
Theorem golden_cache (f : num -> result num) (gr a b : num) (k : nat)
    (st0 st : bracket) (tr tr0 tr1 : list num) :
  golden_start f gr a b tr = Ok (st0, tr0) ->
  golden_iter f gr k st0 tr0 = Ok (st, tr1) ->
  f (xc st) = Ok (fc st) /\ f (xd st) = Ok (fd st).
Proof.
  intros Hs Hi.
  destruct (golden_start_calls _ _ _ _ _ _ _ Hs) as (_ & Hc & _).
  destruct (golden_iter_calls _ _ _ _ _ _ _ Hi) as [_ H]. exact (H Hc).
Qed.

(** X3. When the bracket is not wider than [tol] (an empty or reversed
    bracket [b <= a] with [tol >= 0] is), or when [max_iter = 0], the loop
    body never runs: [_golden_max] still evaluates [f] at the two interior
    points, and returns the midpoint [0.5 * (a + b)] of the bracket it was
    given. *)
Theorem golden_max_no_iteration (f : num -> result num) (a b tol : num)
    (max_iter : nat) (tr : list num) :
  total f ->
  (tol <? b - a) = false \/ max_iter = 0%nat ->
  exists gr fx,
    golden_ratio = Ok gr
    /\ f (dec 5 (-1) * (a + b)) = Ok fx
    /\ _golden_max f a b tol max_iter tr
       = Ok ((dec 5 (-1) * (a + b), fx),
             [dec 5 (-1) * (a + b); a + gr * (b - a); b - gr * (b - a)]
             ++ tr).
Proof.
  intros Hf Hstop.
  destruct golden_ratio_ok as [gr Hgr].
  destruct (Hf (b - gr * (b - a))) as [fc0 Hc].
  destruct (Hf (a + gr * (b - a))) as [fd0 Hd].
  destruct (Hf (dec 5 (-1) * (a + b))) as [fx Hx].
  exists gr, fx. split; [ exact Hgr | ]. split; [ exact Hx | ].
  unfold _golden_max, bindM, lift. rewrite Hgr. cbn [bind].
  unfold golden_start, bindM, call, ret; cbv zeta.
  rewrite Hc; cbn [bind]. rewrite Hd; cbn [bind].
  assert (C : golden_continue tol max_iter
                (Bracket a b (b - gr * (b - a)) (a + gr * (b - a)) fc0 fd0 0)
              = false).
  { unfold golden_continue. cbn [lo hi it].
    destruct Hstop as [-> | ->]; [ reflexivity | ].
    apply andb_false_r. }
  destruct max_iter as [ | m]; cbn [golden_loop]; rewrite C;
    unfold ret; cbn [bind lo hi]; rewrite Hx; reflexivity.
Qed.

End GoldenCalls.

Lemma golden_max_calls_witness :
  exists gr st0 tr0 k st calls x fx,
    golden_ratio (A := binary64) = Ok gr
    /\ golden_start (A := binary64) (fun y => Ok y) gr 0%float 1%float []
       = Ok (st0, tr0)
    /\ tr0 = [0 + gr * (1 - 0); 1 - gr * (1 - 0)]%float
    /\ golden_iter (A := binary64) (fun y => Ok y) gr k st0 tr0
       = Ok (st, calls ++ tr0)
    /\ length calls = k /\ it st = k /\ (k <= 250)%nat
    /\ golden_continue (A := binary64) 1e-14%float 250 st = false
    /\ (forall j, (j < k)%nat ->
          exists stj cj,
            golden_iter (A := binary64) (fun y => Ok y) gr j st0 tr0
            = Ok (stj, cj ++ tr0)
            /\ length cj = j
            /\ golden_continue (A := binary64) 1e-14%float 250 stj = true)
    /\ x = (0.5 * (lo st + hi st))%float /\ Ok x = Ok fx
    /\ _golden_max (A := binary64) (fun y => Ok y) 0%float 1%float
         1e-14%float 250 []
       = Ok ((x, fx), x :: calls ++ tr0)
    /\ length (x :: calls ++ tr0) = (length (@nil float) + (k + 3))%nat.
Proof.
  apply (golden_max_calls (A := binary64) (fun y => Ok y)
           0%float 1%float 1e-14%float 250%nat []).
  intros y. exists y. reflexivity.
Defined.

Lemma golden_cache_witness :
  let f : float -> result float := fun y => Ok (y * (1 - y))%float in
  exists st0 st tr0 tr1,
    golden_start (A := binary64) f 0.6180339887498949%float 0%float 1%float []
    = Ok (st0, tr0)
    /\ golden_iter (A := binary64) f 0.6180339887498949%float 5 st0 tr0
       = Ok (st, tr1)
    /\ f (xc st) = Ok (fc st) /\ f (xd st) = Ok (fd st).
Proof.
  intros f.
  assert (H : exists st0 st tr0 tr1,
             golden_start (A := binary64) f 0.6180339887498949%float
               0%float 1%float [] = Ok (st0, tr0)
             /\ golden_iter (A := binary64) f 0.6180339887498949%float 5
                  st0 tr0 = Ok (st, tr1)).
  { do 4 eexists. split.
    - vm_compute. reflexivity.
    - vm_compute. reflexivity. }
  destruct H as (st0 & st & tr0 & tr1 & H1 & H2).
  exists st0, st, tr0, tr1.
  split; [ exact H1 | ]. split; [ exact H2 | ].
  exact (golden_cache (A := binary64) f _ _ _ _ _ _ _ _ _ H1 H2).
Defined.

Lemma golden_max_no_iteration_witness :
  exists gr fx,
    golden_ratio (A := binary64) = Ok gr
    /\ Ok (0.5 * (1 + 0))%float = Ok fx
    /\ _golden_max (A := binary64) (fun y => Ok y) 1%float 0%float
         1e-14%float 250 []
       = Ok ((0.5 * (1 + 0), fx)%float,
             [0.5 * (1 + 0); 1 + gr * (0 - 1); 0 - gr * (0 - 1)]%float ++ []).
Proof.
  apply (golden_max_no_iteration (A := binary64) (fun y => Ok y)
           1%float 0%float 1e-14%float 250%nat []).
  - intros y. exists y. reflexivity.
  - left. reflexivity.
Defined.


(** ** The bracket of [_golden_max] in exact arithmetic *)

Section BracketExact.

Local Open Scope R_scope.

Lemma phi_inv_bounds : 1 / 2 < phi_inv < 1.
Proof.
  unfold phi_inv.
  assert (H : sqrt 5 * sqrt 5 = 5) by (apply sqrt_sqrt; lra).
  assert (P : 0 <= sqrt 5) by apply sqrt_pos.
  split; nra.
Qed.

Lemma dec_half : dec (Arith := exact) 5 (-1) = 1 / 2.
Proof.
  cbn. unfold Exact.dec. cbn [powerRZ]. change (Pos.to_nat 1) with 1%nat.
  cbn [pow]. lra.
Qed.

(** One iteration keeps the bracket inside the one before, and evaluates
    [f] inside the new bracket. *)
Lemma exact_step_nested (f : R -> result R) (gr : R)
    (st st' : bracket (A := exact)) (tr tr' : list R) :
  1 / 2 <= gr <= 1 ->
  placed gr st -> lo st <= hi st ->
  golden_step (A := exact) f gr st tr = Ok (st', tr') ->
  lo st <= lo st' /\ lo st' <= hi st' /\ hi st' <= hi st
  /\ exists x, tr' = x :: tr /\ lo st' <= x <= hi st'.
Proof.
  intros Hg [Hc Hd] Hw. unfold golden_step.
  assert (W1 : 0 <= gr * (hi st - lo st)) by nra.
  assert (W2 : gr * (hi st - lo st) <= hi st - lo st) by nra.
  assert (W3 : 0 <= gr * (gr * (hi st - lo st))) by nra.
  assert (W4 : gr * (gr * (hi st - lo st)) <= gr * (hi st - lo st)) by nra.
  destruct (ltb (fc st) (fd st)); cbv zeta; unfold bindM, call, ret;
    destruct (f _) as [v | e]; cbn [bind]; try discriminate;
    intros H; injection H as <- <-;
    cbn [lo hi xc xd add sub mul exact]; rewrite ?Hc, ?Hd;
    (split; [ lra | ]); (split; [ lra | ]); (split; [ lra | ]);
    eexists; (split; [ reflexivity | ]).
  - replace (hi st - (hi st - gr * (hi st - lo st)))
      with (gr * (hi st - lo st)) by ring.
    lra.
  - replace (lo st + gr * (hi st - lo st) - lo st)
      with (gr * (hi st - lo st)) by ring.
    lra.
Qed.

Lemma exact_iter_nested (f : R -> result R) (gr : R) (k : nat) :
  gr * gr + gr = 1 -> 1 / 2 <= gr <= 1 ->
  forall (st st' : bracket (A := exact)) (tr tr' : list R),
    placed gr st -> lo st <= hi st ->
    golden_iter (A := exact) f gr k st tr = Ok (st', tr') ->
    placed gr st'
    /\ lo st <= lo st' /\ lo st' <= hi st' /\ hi st' <= hi st
    /\ exists calls,
         tr' = calls ++ tr
         /\ Forall (fun x => lo st <= x <= hi st) calls.
Proof.
  intros Hq Hg. induction k as [ | k IH]; intros st st' tr tr' Hp Hw H;
    cbn [golden_iter] in H.
  - unfold ret in H. injection H as <- <-.
    split; [ exact Hp | ]. repeat (split; [ lra | ]). now exists [].
  - unfold bindM in H.
    destruct (golden_step (A := exact) f gr st tr) as [[st1 tr1] | e] eqn:E;
      cbn [bind] in H; [ | discriminate ].
    destruct (exact_step f gr st st1 tr tr1 Hq Hp E) as [Hp1 _].
    destruct (exact_step_nested f gr st st1 tr tr1 Hg Hp Hw E)
      as (L1 & W1 & U1 & x & -> & Hx).
    destruct (IH st1 st' (x :: tr) tr' Hp1 W1 H)
      as (Hp' & L' & W' & U' & calls & -> & Hcalls).
    split; [ exact Hp' | ]. repeat (split; [ lra | ]).
    exists (calls ++ [x]). rewrite <- app_assoc. split; [ reflexivity | ].
    apply Forall_app. split.
    + eapply Forall_impl; [ | exact Hcalls ]. cbv beta. intros y Hy. lra.
    + constructor; [ lra | constructor ].
Qed.

(** [_golden_max] on a bracket [a <= b]: the last bracket, inside [[a, b]],
    with the calls made, all inside [[a, b]]. *)
Lemma exact_golden_max (f : R -> result R) (a b tol : R) (max_iter : nat)
    (tr : list R) :
  total (A := exact) f -> a <= b ->
  exists (st0 st : bracket (A := exact)) k tr0 tr1 fx calls,
    golden_start (A := exact) f phi_inv a b tr = Ok (st0, tr0)
    /\ golden_iter (A := exact) f phi_inv k st0 tr0 = Ok (st, tr1)
    /\ (k <= max_iter)%nat
    /\ (hi st - lo st <= tol \/ k = max_iter)
    /\ hi st - lo st = (b - a) * phi_inv ^ k
    /\ a <= lo st /\ lo st <= hi st /\ hi st <= b
    /\ f ((lo st + hi st) / 2) = Ok fx
    /\ _golden_max (A := exact) f a b tol max_iter tr
       = Ok (((lo st + hi st) / 2, fx), calls ++ tr)
    /\ (lo st + hi st) / 2 :: tr1 = calls ++ tr
    /\ length calls = (k + 3)%nat
    /\ Forall (fun x => a <= x <= b) calls.
Proof.
  intros Hf Hab.
  pose proof phi_inv_bounds as Hg.
  destruct (golden_max_run (A := exact) f a b tol max_iter tr Hf)
    as (gr & st0 & tr0 & k & st & tr1 & fx & Hgr & Hs & _ & _ & Hi & Hk
        & Hit & Hstop & _ & Hx & Hrun).
  rewrite golden_ratio_exact in Hgr. injection Hgr as <-.
  destruct (exact_start f phi_inv a b st0 tr tr0 Hs) as (Hp & Ha & Hb).
  destruct (golden_start_calls (A := exact) _ _ _ _ _ _ _ Hs)
    as (Htr0 & _).
  destruct (exact_iter f phi_inv k phi_inv_square st0 st tr0 tr1 Hp Hi)
    as [_ Hw].
  destruct (exact_iter_nested f phi_inv k phi_inv_square
              (conj (Rlt_le _ _ (proj1 Hg)) (Rlt_le _ _ (proj2 Hg)))
              st0 st tr0 tr1 Hp)
    as (_ & L & W & U & calls & Hcalls & Hin); [ lra | exact Hi | ].
  destruct (golden_iter_calls (A := exact) _ _ _ _ _ _ _ Hi)
    as [(calls' & Hcalls' & Hlen) _].
  assert (Ecalls : calls' = calls).
  { rewrite Hcalls in Hcalls'. now apply app_inv_tail in Hcalls'. }
  subst calls'.
  rewrite Ha, Hb in *.
  assert (Emid : (dec 5 (-1) * (lo st + hi st))%num = (lo st + hi st) / 2).
  { rewrite dec_half. cbn [add mul exact]. lra. }
  rewrite Emid in Hx, Hrun.
  assert (Pc : 0 <= phi_inv * (b - a) <= b - a) by nra.
  exists st0, st, k, tr0, tr1, fx.
  exists ((lo st + hi st) / 2 :: calls
          ++ [(a + phi_inv * (b - a))%R; (b - phi_inv * (b - a))%R]).
  split; [ exact Hs | ]. split; [ exact Hi | ]. split; [ exact Hk | ].
  split.
  { destruct Hstop as [Hstop | Hstop]; [ left | right; lia ].
    cbn [ltb sub exact] in Hstop. unfold Exact.ltb in Hstop.
    destruct (Rlt_dec tol (hi st - lo st)) as [T | T];
      [ discriminate | lra ]. }
  split; [ exact Hw | ]. repeat (split; [ lra | ]).
  split; [ exact Hx | ].
  assert (Etr : (lo st + hi st) / 2 :: tr1
                = ((lo st + hi st) / 2 :: calls
                   ++ [(a + phi_inv * (b - a))%R;
                       (b - phi_inv * (b - a))%R]) ++ tr).
  { rewrite Hcalls, Htr0. cbn [app]. rewrite <- app_assoc. reflexivity. }
  split.
  { rewrite Hrun.
    exact (f_equal (fun t => Ok (((lo st + hi st) / 2, fx), t)) Etr). }
  split; [ exact Etr | ].
  split.
  { cbn [length]. rewrite length_app. cbn [length num exact] in Hlen |- *.
    lia. }
  constructor; [ lra | ].
  apply Forall_app. split; [ exact Hin | ].
  constructor; [ cbn [add sub mul exact]; lra | ].
  constructor; [ cbn [add sub mul exact]; lra | constructor ].
Qed.

(** X4. In exact arithmetic, on a bracket [a <= b] and for any function [f]
    that returns, [_golden_max] never evaluates [f] outside [[a, b]], and
    the point [x] it returns lies in [[a, b]], within half the width
    [(b - a) * gr^k] of the last bracket from both of its ends. *)
Theorem golden_max_stays_in_bracket (f : R -> result R) (a b tol : R)
    (max_iter : nat) (tr : list R) :
  total (A := exact) f -> a <= b ->
  exists x fx calls,
    _golden_max (A := exact) f a b tol max_iter tr
    = Ok ((x, fx), calls ++ tr)
    /\ f x = Ok fx
    /\ a <= x <= b
    /\ Forall (fun y => a <= y <= b) calls.
Proof.
  intros Hf Hab.
  destruct (exact_golden_max f a b tol max_iter tr Hf Hab)
    as (st0 & st & k & tr0 & tr1 & fx & calls & _ & _ & _ & _ & _ & L & W
        & U & Hx & Hrun & _ & _ & Hin).
  exists ((lo st + hi st) / 2), fx, calls.
  split; [ exact Hrun | ]. split; [ exact Hx | ].
  split; [ lra | exact Hin ].
Qed.

End BracketExact.

Lemma golden_max_stays_in_bracket_witness :
  exists x fx calls,
    _golden_max (A := exact) (fun y => Ok (y * y)%R) 0%R 1%R (1 / 100)%R
      20 []
    = Ok ((x, fx), calls ++ [])
    /\ Ok (x * x)%R = Ok fx
    /\ (0 <= x <= 1)%R
    /\ Forall (fun y => (0 <= y <= 1)%R) calls.
Proof.
  apply (golden_max_stays_in_bracket (fun y => Ok (y * y)%R) 0%R 1%R
           (1 / 100)%R 20%nat []).
  - intros y. eexists. reflexivity.
  - lra.
Defined.

(** ** [_golden_max] on a unimodal function, in exact arithmetic *)

Section Unimodal.

Local Open Scope R_scope.

Variable g : R -> R.
Variable f : R -> result R.
Variables a b m : R.

Hypothesis f_g : computes (A := exact) f g.
Hypothesis g_unimodal : unimodal_on g a b m.

Lemma computes_cached (st : bracket (A := exact)) :
  cached (A := exact) f st -> fc st = g (xc st) /\ fd st = g (xd st).
Proof.
  intros [Hc Hd]. rewrite f_g in Hc, Hd.
  injection Hc as Hc. injection Hd as Hd. auto.
Qed.

(** An iteration does not discard the maximizer. *)
Lemma unimodal_step (gr : R) (st st' : bracket (A := exact))
    (tr tr' : list R) :
  1 / 2 < gr <= 1 ->
  placed gr st -> cached (A := exact) f st ->
  a <= lo st -> hi st <= b -> lo st <= m <= hi st ->
  golden_step (A := exact) f gr st tr = Ok (st', tr') ->
  lo st' <= m <= hi st'.
Proof.
  intros Hg [Hc Hd] Hcache La Ub Hm.
  destruct (computes_cached st Hcache) as [Ec Ed].
  destruct g_unimodal as (_ & Hup & Hdown).
  assert (W1 : 0 <= gr * (hi st - lo st)) by nra.
  assert (W2 : gr * (hi st - lo st) <= hi st - lo st) by nra.
  assert (Hcd : xc st <= xd st) by (rewrite Hc, Hd; nra).
  assert (Hlc : lo st <= xc st) by (rewrite Hc; lra).
  assert (Hdh : xd st <= hi st) by (rewrite Hd; lra).
  unfold golden_step.
  destruct (ltb (fc st) (fd st)) eqn:C; cbv zeta; unfold bindM, call, ret;
    destruct (f _) as [v | e]; cbn [bind]; try discriminate;
    intros H; injection H as <- _; cbn [lo hi];
    cbn [ltb exact] in C; unfold Exact.ltb in C;
    destruct (Rlt_dec (fc st) (fd st)) as [T | T]; try discriminate;
    rewrite Ec, Ed in T.
  - split; [ | lra ].
    destruct (Rle_lt_dec (xc st) m) as [Y | N]; [ exact Y | ].
    destruct (Rle_lt_dec (xd st) (xc st)) as [E | L].
    + assert (E' : xc st = xd st) by lra. rewrite E' in T. lra.
    + pose proof (Hdown (xc st) (xd st)) as D. lra.
  - split; [ lra | ].
    destruct (Rle_lt_dec m (xd st)) as [Y | N]; [ exact Y | ].
    destruct (Rle_lt_dec (xd st) (xc st)) as [E | L].
    + assert (Z : (2 * gr - 1) * (hi st - lo st) = 0) by lra.
      apply Rmult_integral in Z. lra.
    + pose proof (Hup (xc st) (xd st)) as D. elim T. apply D; lra.
Qed.

Lemma unimodal_iter (gr : R) (k : nat) :
  gr * gr + gr = 1 -> 1 / 2 < gr <= 1 ->
  forall (st st' : bracket (A := exact)) (tr tr' : list R),
    placed gr st -> cached (A := exact) f st ->
    a <= lo st -> hi st <= b -> lo st <= m <= hi st ->
    golden_iter (A := exact) f gr k st tr = Ok (st', tr') ->
    lo st' <= m <= hi st'.
Proof.
  intros Hq Hg. induction k as [ | k IH];
    intros st st' tr tr' Hp Hc La Ub Hm H; cbn [golden_iter] in H.
  - unfold ret in H. injection H as <- _. exact Hm.
  - unfold bindM in H.
    destruct (golden_step (A := exact) f gr st tr) as [[st1 tr1] | e] eqn:E;
      cbn [bind] in H; [ | discriminate ].
    destruct (exact_step f gr st st1 tr tr1 Hq Hp E) as [Hp1 _].
    assert (Hg' : 1 / 2 <= gr <= 1) by lra.
    destruct (exact_step_nested f gr st st1 tr tr1 Hg' Hp) as (L1 & _ & U1 & _);
      [ lra | exact E | ].
    destruct (golden_step_call (A := exact) _ _ _ _ _ _ E) as (_ & _ & Hc1 & _).
    pose proof (unimodal_step gr st st1 tr tr1 Hg Hp Hc La Ub Hm E) as Hm1.
    apply (IH st1 st' tr1 tr'); auto; lra.
Qed.

Lemma computes_total : total (A := exact) f.
Proof. intros x. exists (g x). apply f_g. Qed.


End Unimodal.


(** ** The coarse scan *)

Lemma range_cons (lo hi : Z) :
  (lo < hi)%Z -> range lo hi = lo :: range (lo + 1) hi.
Proof.
  intros H. unfold range.
  replace (Z.to_nat (hi - lo)) with (S (Z.to_nat (hi - (lo + 1)))) by lia.
  cbn [seq map]. f_equal; [ lia | ].
  rewrite <- seq_shift, map_map. apply map_ext. intros k. lia.
Qed.

Lemma range_nil (lo hi : Z) : (hi <= lo)%Z -> range lo hi = [].
Proof.
  intros H. unfold range.
  replace (Z.to_nat (hi - lo)) with 0%nat by lia. reflexivity.
Qed.

Lemma range_length (lo hi : Z) : length (range lo hi) = Z.to_nat (hi - lo).
Proof. unfold range. now rewrite length_map, length_seq. Qed.

Section ScanLoop.

Context {A : Arith}.

Local Open Scope num_scope.

(** The loop of the scan asks [f] only at the points [i * step]. *)
Lemma scan_loop_ext (f f' : num -> result num) (step : num) (xs : list Z) :
  (forall i, In i xs -> f (of_int i * step) = f' (of_int i * step)) ->
  forall (st : num * num) (tr : list num),
    for_eachM xs (fun i '(best_p, best_q) =>
      let p := of_int i * step in
      (qv <- call f p ;;
       if best_q <? qv then ret (p, qv) else ret (best_p, best_q))%M) st tr
    = for_eachM xs (fun i '(best_p, best_q) =>
        let p := of_int i * step in
        (qv <- call f' p ;;
         if best_q <? qv then ret (p, qv) else ret (best_p, best_q))%M) st tr.
Proof.
  induction xs as [ | i xs IH]; intros Hf [bp bq] tr; [ reflexivity | ].
  cbn [for_eachM]. unfold bindM at 1 3. cbv zeta.
  unfold bindM at 1 3. unfold call.
  rewrite (Hf i (or_introl eq_refl)).
  destruct (f' (of_int i * step)) as [qv | e]; cbn [bind]; [ | reflexivity ].
  destruct (bq <? qv); unfold ret; cbn [bind];
    apply IH; intros j Hj; apply Hf; now right.
Qed.

Lemma coarse_scan_unfold (f : num -> result num) (tr : list num) (v : num) :
  f (dec 0 0) = Ok v ->
  coarse_scan f tr
  = for_eachM (range 1 2049) (fun i '(best_p, best_q) =>
      let p := of_int i * quo (dec 1 0) (of_int 2048) in
      (qv <- call f p ;;
       if best_q <? qv then ret (p, qv) else ret (best_p, best_q))%M)
      (dec 0 0, dec (-1) 0) (dec 0 0 :: tr).
Proof.
  intros Hv. unfold coarse_scan; cbv zeta.
  change (2049 - 1)%Z with 2048%Z.
  unfold fdiv. rewrite scan_steps_not_zero.
  unfold bindM at 1. unfold lift. cbn [bind].
  unfold bindM at 1. unfold call at 1. rewrite Hv. cbn [bind].
  reflexivity.
Qed.

(** X7. The value [q_prev = f(0.0)] takes no part in the scan: two
    functions that both return at [0.0] and agree at the points [i * step],
    [i = 1..2048], give the same scan, whatever the arithmetic. *)
Theorem coarse_scan_ignores_first_value (f f' : num -> result num)
    (tr : list num) :
  (exists v, f (dec 0 0) = Ok v) ->
  (exists v', f' (dec 0 0) = Ok v') ->
  (forall i, (1 <= i < 2049)%Z -> f (scan_point i) = f' (scan_point i)) ->
  coarse_scan f tr = coarse_scan f' tr.
Proof.
  intros [v Hv] [v' Hv'] Hf.
  rewrite (coarse_scan_unfold f tr v Hv), (coarse_scan_unfold f' tr v' Hv').
  apply scan_loop_ext. intros i Hi. apply Hf.
  unfold range in Hi. apply in_map_iff in Hi.
  destruct Hi as (k & <- & Hk). apply in_seq in Hk. lia.
Qed.

(** The loop of the scan keeps its pair while no value compares above
    [best_q]. *)
Lemma scan_loop_keeps (f : num -> result num) (step bp bq : num)
    (xs : list Z) :
  (forall i, In i xs ->
     exists v, f (of_int i * step) = Ok v /\ (bq <? v) = false) ->
  forall tr : list num,
    for_eachM xs (fun i '(best_p, best_q) =>
      let p := of_int i * step in
      (qv <- call f p ;;
       if best_q <? qv then ret (p, qv) else ret (best_p, best_q))%M)
      (bp, bq) tr
    = Ok ((bp, bq), rev (map (fun i => of_int i * step) xs) ++ tr).
Proof.
  induction xs as [ | i xs IH]; intros Hf tr; [ reflexivity | ].
  cbn [for_eachM map rev]. unfold bindM at 1. cbv zeta.
  unfold bindM at 1. unfold call at 1.
  destruct (Hf i (or_introl eq_refl)) as (v & -> & Hv). cbn [bind].
  rewrite Hv. unfold ret at 1. cbn [bind].
  rewrite <- app_assoc. cbn [app].
  apply IH. intros j Hj. apply Hf. now right.
Qed.

(** X14. When no value of [f] at the points [i * step], [i = 1..2048],
    compares above [-1.0], as when [f] returns NaN, the scan returns the
    pair [(0.0, -1.0)] it started with: [best_q] is then not a value of
    [f]. *)
Theorem coarse_scan_sentinel (f : num -> result num) (tr : list num) :
  (exists v, f (dec 0 0) = Ok v) ->
  (forall i, (1 <= i < 2049)%Z ->
     exists v, f (scan_point i) = Ok v /\ (dec (-1) 0 <? v) = false) ->
  coarse_scan f tr
  = Ok ((dec 0 0, dec (-1) 0),
        rev (map scan_point (range 1 2049)) ++ dec 0 0 :: tr).
Proof.
  intros [v Hv] Hf.
  rewrite (coarse_scan_unfold f tr v Hv).
  apply scan_loop_keeps. intros i Hi. apply Hf.
  unfold range in Hi. apply in_map_iff in Hi.
  destruct Hi as (k & <- & Hk). apply in_seq in Hk. lia.
Qed.

End ScanLoop.

Lemma coarse_scan_ignores_first_value_witness :
  coarse_scan (A := binary64) (fun x => Ok x) []
  = coarse_scan (A := binary64)
      (fun x => if PrimFloat.eqb x 0 then Ok 7%float else Ok x) [].
Proof.
  apply (coarse_scan_ignores_first_value (A := binary64)).
  - exists 0%float. reflexivity.
  - exists 7%float. reflexivity.
  - apply (range_forallb _
             (fun i => negb (PrimFloat.eqb (scan_point (A := binary64) i) 0))).
    + intros i Hi. cbv beta.
      destruct (PrimFloat.eqb (scan_point (A := binary64) i) 0);
        [ discriminate | reflexivity ].
    + vm_compute. reflexivity.
Defined.

Lemma coarse_scan_sentinel_witness :
  coarse_scan (A := binary64) (fun _ => Ok nan) []
  = Ok ((0%float, (-1)%float),
        rev (map (scan_point (A := binary64)) (range 1 2049)) ++ [0%float]).
Proof.
  apply (coarse_scan_sentinel (A := binary64) (fun _ => Ok nan) []).
  - exists nan. reflexivity.
  - intros i Hi. exists nan. split; reflexivity.
Defined.

Section ScanExact.

Local Open Scope R_scope.

Lemma dec_m1 : dec (Arith := exact) (-1) 0 = -1.
Proof. cbn. unfold Exact.dec. cbn. lra. Qed.

Lemma dec_twentieth : dec (Arith := exact) 5 (-2) = 1 / 20.
Proof.
  cbn. unfold Exact.dec. cbn [powerRZ]. change (Pos.to_nat 2) with 2%nat.
  cbn [pow]. lra.
Qed.

Lemma scan_point_exact (i : Z) : scan_point (A := exact) i = IZR i / 2048.
Proof.
  unfold scan_point. cbn [of_int mul quo exact]. rewrite dec_1. lra.
Qed.

Lemma scan_point_unit (i : Z) :
  (0 <= i <= 2048)%Z -> 0 <= scan_point (A := exact) i <= 1.
Proof.
  intros [H0 H1]. rewrite scan_point_exact.
  apply IZR_le in H0, H1. lra.
Qed.

Variable g : R -> R.
Variable f : R -> result R.

Hypothesis f_g : computes (A := exact) f g.

(** The loop of the scan from [lo] on, entered with the pair [(bp, bq)]:
    the pair is kept when no value is above [bq], and is otherwise the first
    point with the largest value, and this value. *)
Lemma scan_loop_exact (hi : Z) (n : nat) :
  forall (lo : Z) (bp bq : R) (tr : list R),
    n = Z.to_nat (hi - lo) ->
    exists bp' bq',
      for_eachM (range lo hi) (fun i '(best_p, best_q) =>
        let p := (of_int i * quo (dec 1 0) (of_int 2048))%num in
        (qv <- call (A := exact) f p ;;
         if (best_q <? qv)%num then ret (p, qv)
         else ret (best_p, best_q))%M) (bp, bq) tr
      = Ok ((bp', bq'), rev (map (scan_point (A := exact)) (range lo hi)) ++ tr)
      /\ ((bp' = bp /\ bq' = bq
           /\ forall j, (lo <= j < hi)%Z -> g (scan_point j) <= bq)
          \/ exists i,
               (lo <= i < hi)%Z /\ bp' = scan_point i /\ bq' = g bp'
               /\ bq < bq'
               /\ (forall j, (lo <= j < i)%Z -> g (scan_point j) < bq')
               /\ (forall j, (lo <= j < hi)%Z -> g (scan_point j) <= bq')).
Proof.
  induction n as [ | n IH]; intros lo bp bq tr Hn.
  - rewrite range_nil by lia. cbn [for_eachM map rev app]. unfold ret.
    exists bp, bq. split; [ reflexivity | ]. left.
    repeat split. intros j Hj. lia.
  - rewrite range_cons by lia. cbn [for_eachM map rev].
    unfold bindM at 1. cbv zeta. unfold bindM at 1. unfold call at 1.
    fold (scan_point (A := exact) lo).
    rewrite f_g. cbn [bind].
    rewrite <- app_assoc. cbn [app].
    destruct (ltb (Arith := exact) bq (g (scan_point (A := exact) lo))) eqn:C;
      cbn [ltb exact] in C; unfold Exact.ltb in C;
      destruct (Rlt_dec bq (g (scan_point (A := exact) lo))) as [T | T];
      try discriminate; unfold ret at 1; cbn [bind].
    + destruct (IH (lo + 1)%Z (scan_point (A := exact) lo) (g (scan_point (A := exact) lo))
                  (scan_point (A := exact) lo :: tr))
        as (bp' & bq' & Hrun & Hres); [ lia | ].
      exists bp', bq'. split; [ exact Hrun | ]. right.
      destruct Hres as [(-> & -> & Hall) | (i & Hi & -> & -> & Hlt & Hbefore
                                            & Hall)].
      * exists lo. split; [ lia | ]. repeat split; auto.
        -- intros j Hj. lia.
        -- intros j Hj. destruct (Z.eq_dec j lo) as [-> | N]; [ lra | ].
           apply Hall. lia.
      * exists i. split; [ lia | ]. repeat split; auto.
        -- lra.
        -- intros j Hj. destruct (Z.eq_dec j lo) as [-> | N]; [ lra | ].
           apply Hbefore. lia.
        -- intros j Hj. destruct (Z.eq_dec j lo) as [-> | N]; [ lra | ].
           apply Hall. lia.
    + destruct (IH (lo + 1)%Z bp bq (scan_point (A := exact) lo :: tr))
        as (bp' & bq' & Hrun & Hres); [ lia | ].
      exists bp', bq'. split; [ exact Hrun | ].
      destruct Hres as [(-> & -> & Hall) | (i & Hi & -> & -> & Hlt & Hbefore
                                            & Hall)].
      * left. repeat split; auto.
        intros j Hj. destruct (Z.eq_dec j lo) as [-> | N]; [ lra | ].
        apply Hall. lia.
      * right. exists i. split; [ lia | ]. repeat split; auto.
        -- intros j Hj. destruct (Z.eq_dec j lo) as [-> | N]; [ lra | ].
           apply Hbefore. lia.
        -- intros j Hj. destruct (Z.eq_dec j lo) as [-> | N]; [ lra | ].
           apply Hall. lia.
Qed.

(** The scan in exact arithmetic. *)
Lemma exact_coarse_scan (tr : list R) :
  exists bp bq,
    coarse_scan (A := exact) f tr
    = Ok ((bp, bq),
          rev (map (scan_point (A := exact)) (range 1 2049)) ++ 0 :: tr)
    /\ ((bp = 0 /\ bq = -1
         /\ forall j, (1 <= j <= 2048)%Z -> g (scan_point j) <= -1)
        \/ exists i,
             (1 <= i <= 2048)%Z /\ bp = scan_point i /\ bq = g bp
             /\ -1 < bq
             /\ (forall j, (1 <= j < i)%Z -> g (scan_point j) < bq)
             /\ (forall j, (1 <= j <= 2048)%Z -> g (scan_point j) <= bq)).
Proof.
  rewrite (coarse_scan_unfold (A := exact) f tr
             (g (dec (Arith := exact) 0 0)) (f_g _)).
  destruct (scan_loop_exact 2049 2048 1 (dec (Arith := exact) 0 0)
              (dec (Arith := exact) (-1) 0)
              (dec (Arith := exact) 0 0 :: tr) eq_refl)
    as (bp & bq & Hrun & Hres).
  exists bp, bq. split.
  { etransitivity; [ exact Hrun | ].
    exact (f_equal
             (fun z => Ok ((bp, bq),
                           rev (map (scan_point (A := exact)) (range 1 2049))
                           ++ z :: tr)) dec_0). }
  rewrite dec_0, dec_m1 in Hres.
  destruct Hres as [(-> & -> & Hall) | (i & Hi & -> & -> & Hlt & Hbefore
                                        & Hall)].
  - left. repeat split. intros j Hj. apply Hall. lia.
  - right. exists i. split; [ lia | ]. repeat split; auto.
    intros j Hj. apply Hall. lia.
Qed.

(** X6. In exact arithmetic the scan evaluates [f] at [0] and then at
    [i / 2048] for [i = 1..2048]; it returns [(0, -1)] when no value at the
    points [i >= 1] is above [-1], and otherwise the first of these points
    at which the value is largest, with this value: a later point with an
    equal value does not replace it, and the value at [0] is not
    compared. *)
Theorem coarse_scan_first_maximum (tr : list R) :
  exists bp bq tr',
    coarse_scan (A := exact) f tr = Ok ((bp, bq), tr')
    /\ rev tr' = rev tr ++ 0 :: map (fun i => IZR i / 2048) (range 1 2049)
    /\ ((bp = 0 /\ bq = -1
         /\ forall j, (1 <= j <= 2048)%Z -> g (IZR j / 2048) <= -1)
        \/ exists i,
             (1 <= i <= 2048)%Z /\ bp = IZR i / 2048 /\ bq = g bp
             /\ -1 < bq
             /\ (forall j, (1 <= j < i)%Z -> g (IZR j / 2048) < bq)
             /\ (forall j, (1 <= j <= 2048)%Z -> g (IZR j / 2048) <= bq)).
Proof.
  destruct (exact_coarse_scan tr) as (bp & bq & Hrun & Hres).
  exists bp, bq. eexists. split; [ exact Hrun | ].
  split.
  { rewrite rev_app_distr, rev_involutive. cbn [rev].
    rewrite <- app_assoc. cbn [app]. do 2 f_equal.
    apply map_ext. intros i. apply scan_point_exact. }
  destruct Hres as [(-> & -> & Hall) | (i & Hi & -> & -> & Hlt & Hbefore
                                        & Hall)].
  - left. repeat split. intros j Hj. rewrite <- scan_point_exact. auto.
  - right. exists i. split; [ exact Hi | ].
    rewrite <- scan_point_exact.
    repeat split; auto; intros j Hj; rewrite <- scan_point_exact; auto.
Qed.

End ScanExact.

Lemma coarse_scan_first_maximum_witness :
  exists bp bq tr',
    coarse_scan (A := exact) (fun x => Ok (x * (1 - x))%R) []
    = Ok ((bp, bq), tr')
    /\ rev tr' = rev [] ++ 0%R :: map (fun i => (IZR i / 2048)%R) (range 1 2049)
    /\ ((bp = 0%R /\ bq = (-1)%R
         /\ forall j, (1 <= j <= 2048)%Z ->
              (IZR j / 2048 * (1 - IZR j / 2048) <= -1)%R)
        \/ exists i,
             (1 <= i <= 2048)%Z /\ bp = (IZR i / 2048)%R
             /\ bq = (bp * (1 - bp))%R
             /\ (-1 < bq)%R
             /\ (forall j, (1 <= j < i)%Z ->
                   (IZR j / 2048 * (1 - IZR j / 2048) < bq)%R)
             /\ (forall j, (1 <= j <= 2048)%Z ->
                   (IZR j / 2048 * (1 - IZR j / 2048) <= bq)%R)).
Proof.
  apply (coarse_scan_first_maximum (fun x => (x * (1 - x))%R)
           (fun x => Ok (x * (1 - x))%R)).
  intros x. reflexivity.
Defined.

(** ** [solve_fast] in exact arithmetic *)

Section SolveExact.

Local Open Scope R_scope.

Lemma pymax_exact (x y : R) :
  x <= pymax (A := exact) x y /\ y <= pymax (A := exact) x y
  /\ (pymax (A := exact) x y = x \/ pymax (A := exact) x y = y).
Proof.
  unfold pymax. cbn [ltb exact]. unfold Exact.ltb.
  destruct (Rlt_dec x y); repeat split; auto; lra.
Qed.

Lemma pymin_exact (x y : R) :
  pymin (A := exact) x y <= x /\ pymin (A := exact) x y <= y
  /\ (pymin (A := exact) x y = x \/ pymin (A := exact) x y = y).
Proof.
  unfold pymin. cbn [ltb exact]. unfold Exact.ltb.
  destruct (Rlt_dec y x); repeat split; auto; lra.
Qed.

(** [solve_fast] with any function in place of the evaluator. *)
Lemma exact_solve_with (f : R -> result R) (g : R -> R) (tr : list R) :
  computes (A := exact) f g ->
  exists bp bq ps k calls,
    coarse_scan (A := exact) f tr
    = Ok ((bp, bq),
          rev (map (scan_point (A := exact)) (range 1 2049)) ++ 0 :: tr)
    /\ solve_with (A := exact) f tr = Ok ((ps, g ps), calls ++ tr)
    /\ 0 <= bp <= 1
    /\ bp - 1 / 20 <= ps <= bp + 1 / 20
    /\ 0 <= ps <= 1
    /\ (k <= 250)%nat
    /\ length calls = (2052 + k)%nat
    /\ Forall (fun y => 0 <= y <= 1) calls.
Proof.
  intros Hfg.
  assert (Hf : total (A := exact) f) by (intros x; exists (g x); apply Hfg).
  destruct (exact_coarse_scan g f Hfg tr) as (bp & bq & Hscan & Hres).
  assert (Hbp : 0 <= bp <= 1).
  { destruct Hres as [(-> & _) | (i & Hi & -> & _)]; [ lra | ].
    apply scan_point_unit. lia. }
  set (tr1 := rev (map (scan_point (A := exact)) (range 1 2049)) ++ 0 :: tr)
    in *.
  set (left := pymax (A := exact) (dec 0 0) (bp - dec 5 (-2))%num).
  set (right := pymin (A := exact) (dec 1 0) (bp + dec 5 (-2))%num).
  set (lit0 := dec (Arith := exact) 0 0) in *.
  set (lit1 := dec (Arith := exact) 1 0) in *.
  set (lit5 := dec (Arith := exact) 5 (-2)) in *.
  assert (E0 : lit0 = 0) by apply dec_0.
  assert (E1 : lit1 = 1) by apply dec_1.
  assert (E5 : lit5 = 1 / 20) by apply dec_twentieth.
  assert (Hl : 0 <= left /\ bp - 1 / 20 <= left /\ left <= bp).
  { pose proof (pymax_exact lit0 (bp - lit5)%num) as H. fold left in H.
    cbn [sub exact] in H. destruct H as (H1 & H2 & [H3 | H3]); lra. }
  assert (Hr : right <= 1 /\ right <= bp + 1 / 20 /\ bp <= right).
  { pose proof (pymin_exact lit1 (bp + lit5)%num) as H. fold right in H.
    cbn [add exact] in H. destruct H as (H1 & H2 & [H3 | H3]); lra. }
  destruct (exact_golden_max f left right
              (dec (Arith := exact) 1 (-14)) 250 tr1 Hf)
    as (st0 & st & k & tr0 & tr2 & fx & calls & _ & _ & Hk & _ & _ & L & W
        & U & Hx & Hrun & _ & Hlen & Hin); [ lra | ].
  rewrite Hfg in Hx. injection Hx as <-.
  exists bp, bq, ((lo st + hi st) / 2), k.
  exists (calls ++ rev (map (scan_point (A := exact)) (range 1 2049)) ++ [0]).
  split; [ exact Hscan | ].
  split.
  { unfold solve_with. unfold bindM at 1. rewrite Hscan. cbn [bind].
    etransitivity; [ exact Hrun | ]. unfold tr1.
    rewrite <- !app_assoc. reflexivity. }
  split; [ exact Hbp | ]. split; [ lra | ]. split; [ lra | ].
  split; [ exact Hk | ].
  split.
  { rewrite !length_app, length_rev, length_map, range_length, Hlen.
    cbn [length]. change (Z.to_nat (2049 - 1)) with 2048%nat. lia. }
  apply Forall_app. split.
  { eapply Forall_impl; [ | exact Hin ]. cbv beta. intros y Hy. lra. }
  apply Forall_app. split; [ | constructor; [ lra | constructor ] ].
  apply Forall_rev. apply Forall_map. apply Forall_forall.
  intros i Hi. apply scan_point_unit.
  unfold range in Hi. apply in_map_iff in Hi.
  destruct Hi as (j & <- & Hj). apply in_seq in Hj. lia.
Qed.

(** X8. In exact arithmetic and with any function [f] that returns in place
    of the evaluator, the solver returns a point [ps] of [[0, 1]], at most
    [0.05] away from the best point of the scan, with the value of [f]
    there; it calls [f] between 2052 and 2302 times, and never outside
    [[0, 1]]. *)
Theorem solve_with_stays_in_unit (f : R -> result R) (g : R -> R)
    (tr : list R) :
  computes (A := exact) f g ->
  exists bp bq tr1 ps calls,
    coarse_scan (A := exact) f tr = Ok ((bp, bq), tr1)
    /\ solve_with (A := exact) f tr = Ok ((ps, g ps), calls ++ tr)
    /\ 0 <= ps <= 1
    /\ Rabs (ps - bp) <= 1 / 20
    /\ (2052 <= length calls <= 2302)%nat
    /\ Forall (fun y => 0 <= y <= 1) calls.
Proof.
  intros Hfg.
  destruct (exact_solve_with f g tr Hfg)
    as (bp & bq & ps & k & calls & Hscan & Hrun & _ & Hnear & Hps & Hk & Hlen
        & Hin).
  exists bp, bq. eexists. exists ps, calls.
  split; [ exact Hscan | ]. split; [ exact Hrun | ]. split; [ exact Hps | ].
  split; [ apply Rabs_le; lra | ]. split; [ lia | exact Hin ].
Qed.

(** X9. In exact arithmetic [solve_fast()] returns a pair [(ps, qs)] with
    [ps] in [[0, 1]], [qs = q(ps)] and [qs] a probability, and every
    argument it gives to the evaluator is in [[0, 1]]. *)
Theorem solve_fast_exact (tr : list R) :
  exists ps qs calls,
    solve_fast (A := exact) tr = Ok ((ps, qs), calls ++ tr)
    /\ _q_of_p (A := exact) ps = Ok qs
    /\ 0 <= ps <= 1 /\ 0 <= qs <= 1
    /\ Forall (fun p => 0 <= p <= 1) calls.
Proof.
  set (g := fun p : R =>
              match _q_of_p (A := exact) p with Ok q => q | Err _ => 0 end).
  assert (Hfg : computes (A := exact) (_q_of_p (A := exact)) g).
  { intros p. unfold g. destruct (q_of_p_ok (A := exact) p) as [q ->].
    reflexivity. }
  destruct (exact_solve_with _ g tr Hfg)
    as (bp & bq & ps & k & calls & _ & Hrun & _ & _ & Hps & _ & _ & Hin).
  exists ps, (g ps), calls.
  split; [ exact Hrun | ]. split; [ apply Hfg | ]. split; [ exact Hps | ].
  split; [ | exact Hin ].
  pose proof (exact_run ps Hps) as H. unfold g, _q_of_p.
  destruct (value_pass (A := exact) ps) as [[V r] | e]; [ | contradiction ].
  cbn [bind].
  destruct (reach_pass (A := exact) ps r) as [F | e]; [ | contradiction ].
  cbn [bind].
  destruct H as (_ & _ & HF).
  destruct (HF 0%nat 0%nat) as (x & -> & Hx); [ lia | lia | exact Hx ].
Qed.

End SolveExact.

Lemma solve_with_stays_in_unit_witness :
  exists bp bq tr1 ps calls,
    coarse_scan (A := exact) (fun x => Ok (x * (1 - x))%R) []
    = Ok ((bp, bq), tr1)
    /\ solve_with (A := exact) (fun x => Ok (x * (1 - x))%R) []
       = Ok ((ps, (ps * (1 - ps))%R), calls ++ [])
    /\ (0 <= ps <= 1)%R
    /\ (Rabs (ps - bp) <= 1 / 20)%R
    /\ (2052 <= length calls <= 2302)%nat
    /\ Forall (fun y => (0 <= y <= 1)%R) calls.
Proof.
  apply (solve_with_stays_in_unit (fun x => Ok (x * (1 - x))%R)
           (fun x => (x * (1 - x))%R) []).
  intros x. reflexivity.
Defined.

(** ** The values of the game in exact arithmetic *)

(** One cell of the backward induction in exact arithmetic, the value it
    stores kept with its bounds. *)
Ltac ordered_value_cell :=
  value_cell;
  lazymatch goal with
  | Er : ?rv = r_of ?a ?b ?p, Ev : ?vv = _ |- _ =>
      let Hb := fresh "Hb" in
      assert (Hb : (0 <= rv <= 1)%R /\ (b <= vv <= a)%R)
        by (apply (value_cell_bounds p a b rv vv);
            [ lra
            | rewrite ?dec_0, ?dec_1; lra
            | rewrite ?dec_0, ?dec_1; lra
            | exact Er
            | exact Ev ]);
      rewrite ?dec_0, ?dec_1 in Hb;
      clear Er Ev
  end.

Section ValuesExact.

Local Open Scope R_scope.

Lemma exact_value_run (p : R) :
  0 <= p <= 1 ->
  match value_pass (A := exact) p with
  | Ok (V, r) => monotone_cells V
  | Err _ => False
  end.
Proof.
  intros Hp.
  unfold value_pass, zeros.
  cbn [repeat seq]. run_grid_ops.
  do 12 ordered_value_cell.
  run_grid_ops. rewrite ?dec_0, ?dec_1.
  unfold monotone_cells. intros b s Hb' Hs'.
  repeat (destruct b as [ | b]; [ | try lia ]); try lia;
    repeat (destruct s as [ | s]; [ | try lia ]); try lia;
    cbn [getitem nth_error Nat.add]; do 3 eexists;
    (split; [ reflexivity | ]); (split; [ reflexivity | ]);
    (split; [ reflexivity | ]); lra.
Qed.

(** X10. In exact arithmetic and for [p] in [[0, 1]], the values of the
    game are ordered: at every state [(b, s)] with [b < 4] and [s < 3] the
    value [V[b][s]] lies between [V[b][s+1]], one more strike, and
    [V[b+1][s]], one more ball, and all of them lie in [[0, 1]]. *)
Theorem value_grid_monotone (p : R) :
  0 <= p <= 1 ->
  exists V r,
    value_pass (A := exact) p = Ok (V, r)
    /\ forall b s, (b < 4)%nat -> (s < 3)%nat ->
         exists v A0 B0,
           getitem V b s = Ok v
           /\ getitem V (b + 1) s = Ok A0 /\ getitem V b (s + 1) = Ok B0
           /\ 0 <= B0 <= v /\ v <= A0 <= 1.
Proof.
  intros Hp. pose proof (exact_value_run p Hp) as H.
  destruct (value_pass (A := exact) p) as [[V r] | e]; [ | contradiction ].
  exists V, r. split; [ reflexivity | exact H ].
Qed.

Lemma eps_le_1 : Exact.dec 1 (-18) <= 1.
Proof.
  unfold Exact.dec. rewrite Rmult_1_l. cbn [powerRZ].
  apply Rle_trans with (/ 1); [ | rewrite Rinv_1; lra ].
  apply Rinv_le_contravar; [ lra | ]. apply pow_R1_Rle. lra.
Qed.

(** X11. In exact arithmetic, when the denominator is not within [1e-18] of
    zero, the probability [r] that [_equilibrium_r] returns makes the two
    actions worth the same: with [r] the probability of a ball, waiting is
    worth [r * A + (1 - r) * B] and swinging
    [r * B + (1 - r) * (4 * p + (1 - p) * B)], and both are the value
    [B + (A - B) * r] that the backward induction stores. *)
Theorem equilibrium_indifference (A0 B0 p : R) :
  Exact.dec 1 (-18) <= Rabs ((A0 - B0) + p * (4 - B0)) ->
  exists r,
    _equilibrium_r (A := exact) A0 B0 p = Ok r
    /\ B0 + (A0 - B0) * r = r * A0 + (1 - r) * B0
    /\ B0 + (A0 - B0) * r = r * B0 + (1 - r) * (p * 4 + (1 - p) * B0).
Proof.
  intros Hd. exists (r_of (A := exact) A0 B0 p).
  split; [ apply equilibrium_r_ok | ].
  split; [ ring | ].
  unfold r_of; cbv zeta. rewrite dec_4.
  cbn [dec ltb absn add sub mul quo exact]. unfold Exact.ltb.
  destruct (Rlt_dec _ _) as [L | L]; [ lra | ].
  assert (N : A0 - B0 + p * (4 - B0) <> 0).
  { intros E. rewrite E, Rabs_R0 in Hd. pose proof Exact.eps_pos. lra. }
  field. exact N.
Qed.

End ValuesExact.

Lemma value_grid_monotone_witness :
  exists V r,
    value_pass (A := exact) (1 / 2)%R = Ok (V, r)
    /\ forall b s, (b < 4)%nat -> (s < 3)%nat ->
         exists v A0 B0,
           getitem V b s = Ok v
           /\ getitem V (b + 1) s = Ok A0 /\ getitem V b (s + 1) = Ok B0
           /\ (0 <= B0 <= v)%R /\ (v <= A0 <= 1)%R.
Proof.
  apply (value_grid_monotone (1 / 2)%R). lra.
Defined.

Lemma equilibrium_indifference_witness :
  exists r,
    _equilibrium_r (A := exact) 1%R 0%R (1 / 2)%R = Ok r
    /\ (0 + (1 - 0) * r = r * 1 + (1 - r) * 0)%R
    /\ (0 + (1 - 0) * r
        = r * 0 + (1 - r) * (1 / 2 * 4 + (1 - 1 / 2) * 0))%R.
Proof.
  apply (equilibrium_indifference 1%R 0%R (1 / 2)%R).
  replace (1 - 0 + 1 / 2 * (4 - 0))%R with 3%R by lra.
  rewrite Rabs_right by lra.
  pose proof eps_le_1. lra.
Defined.

(** ** The lists of the evaluator on the heap *)

Section HeapFacts.

Context {A : Arith}.

Local Open Scope num_scope.

Ltac index_cases b :=
  repeat (destruct b as [ | b]; [ | try lia ]); try lia.

(** Writing one cell of a grid of zeros, on grids that are values. *)
Lemma setitem_zeros (b s : nat) (x : num) :
  (b < 5)%nat -> (s < 4)%nat ->
  exists G,
    setitem zeros b s x = Ok G /\ length G = 5%nat
    /\ forall b' s', (b' < 5)%nat -> (s' < 4)%nat ->
         getitem G b' s'
         = Ok (if Nat.eqb b b' && Nat.eqb s s' then x else dec 0 0).
Proof.
  intros Hb Hs. unfold zeros. cbn [repeat].
  index_cases b; index_cases s; eexists;
    (split; [ reflexivity | ]); (split; [ reflexivity | ]);
    intros b' s' Hb' Hs'; index_cases b'; index_cases s'; reflexivity.
Qed.

(** X13. The five rows of a grid made by
    [[[0.0]*4 for _ in range(5)]] are five lists: after [g[b][s] = x] on a
    new grid, [g[b][s]] is [x] and every other cell is still [0.0], the cells
    of the same column in the other rows among them. *)
Theorem new_grid_rows_distinct (h : Imp.heap) (b s b' s' : nat) (x : num) :
  (b < 5)%nat -> (s < 4)%nat -> (b' < 5)%nat -> (s' < 4)%nat ->
  exists g h1 h2,
    Imp.new_grid h = Ok (g, h1)
    /\ Imp.setitem g b s x h1 = Ok (tt, h2)
    /\ Imp.getitem g b' s' h2
       = Ok (if Nat.eqb b b' && Nat.eqb s s' then x else dec 0 0, h2).
Proof.
  intros Hb Hs Hb' Hs'.
  destruct (setitem_zeros b s x Hb Hs) as (G & Hset & HG & Hget).
  exists (length h + 5)%nat, (around h zeros []), (around h G []).
  split.
  { rewrite new_grid_run. unfold around. now rewrite app_nil_r. }
  split.
  { apply (setitem_sim h [] zeros G b s x Hset). }
  rewrite <- HG. apply getitem_sim. now apply Hget.
Qed.

(** X12. A call of [_q_of_p] on the heap leaves the lists that were there
    as they were and adds 18 lists behind them: the four-item rows and the
    list of rows of [V], then those of [r], then those of [F], holding what
    the two sweeps have computed. *)
Theorem q_of_p_allocation (p : num) (h : Imp.heap) :
  exists q V r F,
    value_pass p = Ok (V, r) /\ reach_pass p r = Ok F
    /\ getitem F 0 0 = Ok q
    /\ Imp._q_of_p p h
       = Ok (q, h ++ enc (length h) V ++ enc (length h + 6) r
                  ++ enc (length h + 12) F)
    /\ length (enc (length h) V ++ enc (length h + 6) r
               ++ enc (length h + 12) F) = 18%nat.
Proof.
  destruct (q_of_p_run p) as (V & r & F & EV & HV & EF & HF & Eq).
  assert (E00 : getitem F 0 0 = Ok (cell F 0 0))
    by (apply shape_getitem; [ apply HF | lia | lia ]).
  exists (cell F 0 0), V, r, F.
  split; [ exact EV | ]. split; [ exact EF | ]. split; [ exact E00 | ].
  split; [ exact (heap_run h p V r F _ EV EF E00) | ].
  destruct HV as ((LV & _) & (Lr & _) & _). destruct HF as ((LF & _) & _).
  rewrite !length_app, !enc_length, LV, Lr, LF. reflexivity.
Qed.

End HeapFacts.

Lemma new_grid_rows_distinct_witness :
  exists g h1 h2,
    Imp.new_grid (A := binary64) [] = Ok (g, h1)
    /\ Imp.setitem (A := binary64) g 4 0 1%float h1 = Ok (tt, h2)
    /\ Imp.getitem (A := binary64) g 3 0 h2
       = Ok (if Nat.eqb 4 3 && Nat.eqb 0 0 then 1%float else 0%float, h2).
Proof.
  apply (new_grid_rows_distinct (A := binary64) [] 4 0 3 0 1%float); lia.
Defined.
